(** * Trapezoidal transient simulation of the RL and RLC circuits

    A shallow embedding of the two simulation scripts of the repository:

    - [RL]  : the series RL circuit with a partial short circuit
              (second half of [CIrcuitoPiSérie.py]);
    - [RLC] : the simplified pi circuit with a load step ([test.py]).

    Numbers.  The scripts compute with Python floats and NumPy float64
    arrays.  They are embedded here in exact rational arithmetic ([Q]):
    every decimal literal of the source denotes the rational it writes,
    and [+], [-], [*], [/] are the field operations.  What Python and
    NumPy do outside the field is written out: a Python division by zero
    raises [ZeroDivisionError], a NumPy scalar division by zero yields a
    non-finite value instead of raising, [int] truncates toward zero.
    Equalities between computed rationals are stated with [==].  The
    number of samples and the position of the event on the grid are
    checked to be the same in IEEE binary64 ([binary64_n_steps],
    [binary64_event_step]).

    Globals.  The module-level constants of each script are collected in
    a record ([RL.circuit], [RLC.circuit]); [RL.script] and [RLC.script]
    hold the values written in the source. *)

From Stdlib Require Import QArith Qround ZArith Lia Psatz Reals Qreals Floats.
From stdpp Require Import base list.

Open Scope Q_scope.

(** ** Exceptions and the error monad *)

Inductive exn : Set :=
| ZeroDivisionError
| ValueError
| IndexError
| LinAlgError.

Inductive result (A : Type) : Type :=
| Ok (a : A)
| Raise (e : exn).

Arguments Ok {A} a.
Arguments Raise {A} e.

Definition bind {A B : Type} (m : result A) (k : A → result B) : result B :=
  match m with
  | Ok a => k a
  | Raise e => Raise e
  end.

Notation "'let*' x := m 'in' k" := (bind m (λ x, k))
  (at level 10, x name, m at level 200, k at level 200,
   format "'[v' 'let*'  x  :=  m  'in' '/' k ']'").

(** ** Python and NumPy primitives used by the scripts *)

(** [a / b] on Python floats. *)
Definition truediv (a b : Q) : result Q :=
  if Qeq_bool b 0 then Raise ZeroDivisionError else Ok (a / b).

(** [int(q)]: truncation toward zero. *)
Definition int (q : Q) : Z := Z.quot (Qnum q) (Zpos (Qden q)).

(** [a < b] as a boolean. *)
Definition Qltb (a b : Q) : bool := negb (Qle_bool b a).

(** [range(n)]. *)
Definition range (n : Z) : list nat := seq 0 (Z.to_nat n).

(** [np.zeros(n)]: a negative dimension is refused. *)
Definition zeros (n : Z) : result (list Q) :=
  if (n <? 0)%Z then Raise ValueError else Ok (replicate (Z.to_nat n) 0).

(** [np.linspace(start, stop, num)] with the default [endpoint=True]:
    [num] samples [start + i * step], [step = (stop - start) / (num - 1)],
    the last one set to [stop]; a negative [num] is refused. *)
Definition linspace (start stop : Q) (num : Z) : result (list Q) :=
  if (num <? 0)%Z then Raise ValueError
  else
    let div := (num - 1)%Z in
    let delta := stop - start in
    let step := delta / inject_Z div in
    let y := (λ i : nat, inject_Z (Z.of_nat i) * step + start) <$> seq 0 (Z.to_nat num) in
    Ok (if (1 <? num)%Z then <[Z.to_nat div := stop]> y else y).

(** [a[i]] on an array, read and write. *)
Definition getitem {A : Type} (a : list A) (i : nat) : result A :=
  match a !! i with
  | Some v => Ok v
  | None => Raise IndexError
  end.

Definition setitem {A : Type} (a : list A) (i : nat) (v : A) : result (list A) :=
  if decide (i < length a)%nat then Ok (<[i := v]> a) else Raise IndexError.

(** [for n in ns: s = body(n, s)], stopping at the first exception. *)
Fixpoint for_each {S : Type} (body : nat → S → result S) (ns : list nat) (s : S) : result S :=
  match ns with
  | [] => Ok s
  | n :: ns' =>
      match body n s with
      | Ok s' => for_each body ns' s'
      | Raise e => Raise e
      end
  end.

(** ** The RL script *)

Module RL.

(** The script's [pegar_resistência(time)]. *)
Definition pegar_resistência (time : Q) : Q :=
  if Qltb time 0.05 then 10.0 else 1.0.

(** Module-level parameters; [resistência] is the function the loop
    calls to get the resistance at a time. *)
Record circuit : Type := {
  L : Q;
  V_fonte : Q;
  resistência : Q → Q;
  t_max : Q;
  dt : Q
}.

Definition script : circuit := {|
  L := 0.1;
  V_fonte := 220.0;
  resistência := pegar_resistência;
  t_max := 0.1;
  dt := 1e-5
|}.

(** Variables assigned by the loop. *)
Record vars : Type := {
  x : Q;
  i_L : list Q;
  v_R : list Q;
  v_L : list Q
}.

(** What the script leaves behind for plotting. *)
Record series : Type := {
  t : list Q;
  out : vars
}.

Definition lado_esquerdo (dt A : Q) : Q := 1 - (dt / 2) * A.

Definition lado_direito (dt A B x u : Q) : Q := (1 + (dt / 2) * A) * x + dt * B * u.

(** Lines 132-151: the next state from the current one, with the
    resistance [R_n] read at the current instant. *)
Definition passo (c : circuit) (R_n x u : Q) : result Q :=
  let* A := truediv (- R_n) (L c) in
  let* B := truediv 1 (L c) in
  truediv (lado_direito (dt c) A B x u) (lado_esquerdo (dt c) A).

(** One iteration of the main loop (lines 129-164). *)
Definition iteration (c : circuit) (t : list Q) (u : Q) (n : nat) (s : vars) : result vars :=
  let* t_n := getitem t n in
  let R_n := resistência c t_n in
  let* x_próximo := passo c R_n (x s) u in
  let* i_L := setitem (i_L s) (n + 1) x_próximo in
  let x := x_próximo in
  let* t_n1 := getitem t (n + 1) in
  let R_proxíma := resistência c t_n1 in
  let* i_n1 := getitem i_L (n + 1) in
  let* v_R := setitem (v_R s) (n + 1) (R_proxíma * i_n1) in
  let* v_n1 := getitem v_R (n + 1) in
  let* v_L := setitem (v_L s) (n + 1) (V_fonte c - v_n1) in
  Ok {| x := x; i_L := i_L; v_R := v_R; v_L := v_L |}.

(** Lines 101-164. *)
Definition run (c : circuit) : result series :=
  let* q := truediv (t_max c) (dt c) in
  let n_steps := int q in
  let* t := linspace 0 (t_max c) n_steps in
  let* i_L := zeros n_steps in
  let* v_R := zeros n_steps in
  let* v_L := zeros n_steps in
  let x := 0.0 in
  let u := V_fonte c in
  let* s := for_each (iteration c t u) (range (n_steps - 1))
              {| x := x; i_L := i_L; v_R := v_R; v_L := v_L |} in
  Ok {| t := t; out := s |}.

End RL.


(** ** NumPy pieces of the RLC script *)

(** A NumPy float64 scalar that may come from a division: a rational, or
    the non-finite outcome ([inf] or [nan]) of dividing by zero. *)
Inductive float64 : Type :=
| finite (q : Q)
| non_finite.

(** Equality of float64 values, up to [==] on the finite ones. *)
Definition float64_eq (a b : float64) : Prop :=
  match a, b with
  | finite p, finite q => p == q
  | non_finite, non_finite => True
  | _, _ => False
  end.

(** [a / b] with [a] a float64 array element: no exception, a warning and
    a non-finite value when [b] is zero. *)
Definition np_divide (a b : Q) : float64 :=
  if Qeq_bool b 0 then non_finite else finite (a / b).

Definition vec2 : Type := Q * Q.

(** A 2x2 array, by rows. *)
Definition mat2 : Type := vec2 * vec2.

(** [np.eye(2)]. *)
Definition eye2 : mat2 := ((1, 0), (0, 1)).

(** [k * m], [a + b], [a - b] on 2x2 arrays, [k * v] and [v + w] on
    vectors, [m @ v]. *)
Definition mat_scale (k : Q) (m : mat2) : mat2 :=
  ((k * m.1.1, k * m.1.2), (k * m.2.1, k * m.2.2)).

Definition mat_add (a b : mat2) : mat2 :=
  ((a.1.1 + b.1.1, a.1.2 + b.1.2), (a.2.1 + b.2.1, a.2.2 + b.2.2)).

Definition mat_sub (a b : mat2) : mat2 :=
  ((a.1.1 - b.1.1, a.1.2 - b.1.2), (a.2.1 - b.2.1, a.2.2 - b.2.2)).

Definition vec_scale (k : Q) (v : vec2) : vec2 := (k * v.1, k * v.2).

Definition vec_add (v w : vec2) : vec2 := (v.1 + w.1, v.2 + w.2).

Definition matvec (m : mat2) (v : vec2) : vec2 :=
  (m.1.1 * v.1 + m.1.2 * v.2, m.2.1 * v.1 + m.2.2 * v.2).

Definition det (m : mat2) : Q := m.1.1 * m.2.2 - m.1.2 * m.2.1.

(** [np.linalg.solve(a, b)] for a 2x2 system: the solution of [a x = b];
    a singular [a] raises [LinAlgError]. *)
Definition solve (a : mat2) (b : vec2) : result vec2 :=
  if Qeq_bool (det a) 0 then Raise LinAlgError
  else Ok ((b.1 * a.2.2 - a.1.2 * b.2) / det a, (a.1.1 * b.2 - a.2.1 * b.1) / det a).

(** Componentwise [==]. *)
Definition vec_eq (v w : vec2) : Prop := v.1 == w.1 ∧ v.2 == w.2.

(** ** The RLC script *)

Module RLC.

Definition R_load_initial : Q := 50.

(** The script's [load_resistance(time_step)]. *)
Definition load_resistance (time_step : Q) : Q :=
  if Qltb time_step 0.005 then R_load_initial else R_load_initial / 2.

(** Module-level parameters; [R_load] is the function the loop calls to
    get the load resistance at a time. *)
Record circuit : Type := {
  L : Q;
  C : Q;
  V_source : Q;
  R_load : Q → Q;
  t_max : Q;
  dt : Q
}.

Definition script : circuit := {|
  L := 0.01;
  C := 1e-6;
  V_source := 100;
  R_load := load_resistance;
  t_max := 0.01;
  dt := 1e-6
|}.

(** Variables assigned by the loop. *)
Record vars : Type := {
  x : vec2;
  i_L : list Q;
  v_C : list Q;
  i_load : list float64
}.

Record series : Type := {
  t : list Q;
  out : vars
}.

(** Lines 43-44: the state matrix for the load resistance [R_load_n]. *)
Definition A_load (c : circuit) (R_load_n : Q) : result mat2 :=
  let* a01 := truediv (-1) (L c) in
  let* a10 := truediv 1 (C c) in
  let* a11 := truediv (-1) (R_load_n * C c) in
  Ok ((0, a01), (a10, a11)).

Definition left_side (dt : Q) (A : mat2) : mat2 :=
  mat_sub eye2 (mat_scale (dt / 2) A).

Definition right_side_matrix (dt : Q) (A : mat2) : mat2 :=
  mat_add eye2 (mat_scale (dt / 2) A).

Definition right_side_vector (dt : Q) (A : mat2) (x u_vec : vec2) : vec2 :=
  vec_add (matvec (right_side_matrix dt A) x) (vec_scale dt u_vec).

(** Lines 39-60: the next state from the current one, with the load
    resistance [R_load_n] read at the current instant. *)
Definition step (c : circuit) (R_load_n : Q) (x u_vec : vec2) : result vec2 :=
  let* A := A_load c R_load_n in
  solve (left_side (dt c) A) (right_side_vector (dt c) A x u_vec).

(** One iteration of the loop (lines 37-66). *)
Definition iteration (c : circuit) (t : list Q) (u_vec : vec2) (n : nat) (s : vars)
  : result vars :=
  let* t_n := getitem t n in
  let R_load_n := R_load c t_n in
  let* x_next := step c R_load_n (x s) u_vec in
  let x := x_next in
  let* i_L := setitem (i_L s) (n + 1) x.1 in
  let* v_C := setitem (v_C s) (n + 1) x.2 in
  let* v_n1 := getitem v_C (n + 1) in
  let* t_n1 := getitem t (n + 1) in
  let* i_load := setitem (i_load s) (n + 1) (np_divide v_n1 (R_load c t_n1)) in
  Ok {| x := x; i_L := i_L; v_C := v_C; i_load := i_load |}.

(** Lines 12-66. *)
Definition run (c : circuit) : result series :=
  let* q := truediv (t_max c) (dt c) in
  let n_steps := int q in
  let* t := linspace 0 (t_max c) n_steps in
  let* i_L := zeros n_steps in
  let* v_C := zeros n_steps in
  let* i_load := zeros n_steps in
  let x := (0.0, 0.0) in
  let* u0 := truediv (V_source c) (L c) in
  let u_vec := (u0, 0) in
  let* s := for_each (iteration c t u_vec) (range (n_steps - 1))
              {| x := x; i_L := i_L; v_C := v_C; i_load := finite <$> i_load |} in
  Ok {| t := t; out := s |}.

End RLC.

(** ** The pi-model script

    The first part of [CIrcuitoPiSérie.py] (lines 4-52): the ABCD matrix of
    the nominal pi model of a line, the load current and voltage, and the
    voltage profile.  Python complex numbers are pairs of rationals.  The
    two [np.sqrt] values (characteristic impedance and propagation
    constant) and the magnitudes are only printed or plotted and are left
    out; the quotient [Z / Y] that the first [np.sqrt] is given is still
    evaluated, since it can raise. *)

Record complex : Type := Complex { re : Q; im : Q }.

(** A real operand of a mixed operation. *)
Definition of_real (a : Q) : complex := Complex a 0.

(** [1j]. *)
Definition j : complex := Complex 0 1.

Definition cadd (a b : complex) : complex := Complex (re a + re b) (im a + im b).

Definition cmul (a b : complex) : complex :=
  Complex (re a * re b - im a * im b) (re a * im b + im a * re b).

Definition is_zero (a : complex) : bool := Qeq_bool (re a) 0 && Qeq_bool (im a) 0.

(** [a / b] on Python complex numbers. *)
Definition cdiv (a b : complex) : result complex :=
  if is_zero b then Raise ZeroDivisionError
  else
    let d := re b * re b + im b * im b in
    Ok (Complex ((re a * re b + im a * im b) / d) ((im a * re b - re a * im b) / d)).

(** Componentwise [==]. *)
Definition ceq (a b : complex) : Prop := re a == re b ∧ im a == im b.

(** [np.pi], the binary64 number nearest to pi. *)
Definition np_pi : Q := 884279719003555 # 281474976710656.

Module PiModel.

(** Module-level parameters of the script. *)
Record line : Type := {
  R : Q;
  L : Q;
  C : Q;
  G : Q;
  length : Q;
  f : Q;
  Vs : Q;
  Z_load : Q;
  n_points : Z
}.

Definition script : line := {|
  R := 0.1;
  L := 1e-3;
  C := 10e-9;
  G := 1e-6;
  length := 100;
  f := 60;
  Vs := 100e3;
  Z_load := 500;
  n_points := 100
|}.

Definition omega (p : line) : Q := 2 * np_pi * f p.

(** Lines 14-15: series impedance and shunt admittance per unit length. *)
Definition Z (p : line) : complex :=
  cadd (of_real (R p)) (cmul (cmul j (of_real (omega p))) (of_real (L p))).

Definition Y (p : line) : complex :=
  cadd (of_real (G p)) (cmul (cmul j (of_real (omega p))) (of_real (C p))).

(** The ABCD matrix (lines 27-30; the script reuses the name [C]). *)
Record abcd : Type := { A : complex; B : complex; C_abcd : complex; D : complex }.

(** What the script leaves behind for plotting and printing. *)
Record outputs : Type := {
  matrix : abcd;
  I_load : complex;
  V_load : complex;
  x : list Q;
  V_x : list complex
}.

(** Lines 18-30. *)
Definition pi_matrix (p : line) : result abcd :=
  let Z_total := cmul (Z p) (of_real (length p)) in
  let Y_total := cmul (Y p) (of_real (length p)) in
  let* Y_shunt := cdiv Y_total (of_real 2) in
  let* _ := cdiv (Z p) (Y p) in
  let A := cadd (of_real 1) (cmul Z_total Y_shunt) in
  let B := Z_total in
  let C := cadd Y_total (cmul (cmul Z_total Y_shunt) Y_shunt) in
  let D := A in
  Ok {| A := A; B := B; C_abcd := C; D := D |}.

(** One iteration of the profile loop (lines 44-52). *)
Definition iteration (p : line) (x : list Q) (I_load V_load : complex) (i : nat)
    (V_x : list complex) : result (list complex) :=
  let* l := getitem x i in
  let Z_partial := cmul (Z p) (of_real l) in
  let Y_partial := cmul (Y p) (of_real l) in
  let* Y_shunt_partial := cdiv Y_partial (of_real 2) in
  let A_partial := cadd (of_real 1) (cmul Z_partial Y_shunt_partial) in
  let B_partial := Z_partial in
  setitem V_x i (cadd (cmul A_partial V_load) (cmul B_partial I_load)).

(** Lines 11-52. *)
Definition run (p : line) : result outputs :=
  let* m := pi_matrix p in
  let* I_load := cdiv (of_real (Vs p)) (cadd (cmul (A m) (of_real (Z_load p))) (B m)) in
  let V_load := cmul (of_real (Z_load p)) I_load in
  let* x := linspace 0 (length p) (n_points p) in
  let* V_x := zeros (n_points p) in
  let* V_x := for_each (iteration p x I_load V_load) (range (n_points p)) (of_real <$> V_x) in
  Ok {| matrix := m; I_load := I_load; V_load := V_load; x := x; V_x := V_x |}.

End PiModel.

(** ** Coarse runs

    The scripts with their own constants and a time step large enough for
    the whole run to be evaluated: ten samples for RL, four for RLC. *)

Definition rl_coarse : RL.circuit := {|
  RL.L := 0.1;
  RL.V_fonte := 220.0;
  RL.resistência := RL.pegar_resistência;
  RL.t_max := 0.1;
  RL.dt := 0.01
|}.

Definition rlc_coarse : RLC.circuit := {|
  RLC.L := 0.01;
  RLC.C := 1e-6;
  RLC.V_source := 100;
  RLC.R_load := RLC.load_resistance;
  RLC.t_max := 0.01;
  RLC.dt := 0.0025
|}.

(** The scripts with other values of the inductance, the capacitance and
    the time step, everything else as written. *)
Definition rl_script_with (L dt : Q) : RL.circuit := {|
  RL.L := L;
  RL.V_fonte := 220.0;
  RL.resistência := RL.pegar_resistência;
  RL.t_max := 0.1;
  RL.dt := dt
|}.

Definition rlc_script_with (L C dt : Q) : RLC.circuit := {|
  RLC.L := L;
  RLC.C := C;
  RLC.V_source := 100;
  RLC.R_load := RLC.load_resistance;
  RLC.t_max := 0.01;
  RLC.dt := dt
|}.

(** What a run leaves when the loop body is never entered. *)
Definition rl_untouched (t : list Q) : RL.series := {|
  RL.t := t;
  RL.out := {| RL.x := 0.0; RL.i_L := replicate (length t) 0;
               RL.v_R := replicate (length t) 0; RL.v_L := replicate (length t) 0 |}
|}.

Definition rlc_untouched (t : list Q) : RLC.series := {|
  RLC.t := t;
  RLC.out := {| RLC.x := (0.0, 0.0); RLC.i_L := replicate (length t) 0;
                RLC.v_C := replicate (length t) 0;
                RLC.i_load := finite <$> replicate (length t) 0 |}
|}.

(** The RL script with the resistance held at its pre-event value. *)
Definition rl_constant : RL.circuit := {|
  RL.L := 0.1;
  RL.V_fonte := 220.0;
  RL.resistência := λ _, 10.0;
  RL.t_max := 0.1;
  RL.dt := 1e-5
|}.

(** The coarse RL run with the source switched off. *)
Definition rl_coarse_off : RL.circuit := {|
  RL.L := 0.1;
  RL.V_fonte := 0;
  RL.resistência := RL.pegar_resistência;
  RL.t_max := 0.1;
  RL.dt := 0.01
|}.

(** The coarse RLC run with the source switched off and a load that
    becomes a short circuit at the last instant of the grid. *)
Definition rlc_shorted_end : RLC.circuit := {|
  RLC.L := 0.01;
  RLC.C := 1e-6;
  RLC.V_source := 0;
  RLC.R_load := λ time_step, if Qltb time_step 0.01 then 50 else 0;
  RLC.t_max := 0.01;
  RLC.dt := 0.0025
|}.

(** ** Vocabulary of the statements *)

(** The profile sample the pi-model loop computes at the distance [l]:
    [(1 + (Z l) (Y l / 2)) V_load + (Z l) I_load]. *)
Definition pi_profile_sample (p : PiModel.line) (I_load V_load : complex) (l : Q)
    (v : complex) : Prop :=
  ∃ Y_shunt_partial,
    cdiv (cmul (PiModel.Y p) (of_real l)) (of_real 2) = Ok Y_shunt_partial ∧
    v = cadd (cmul (cadd (of_real 1) (cmul (cmul (PiModel.Z p) (of_real l)) Y_shunt_partial))
                   V_load)
             (cmul (cmul (PiModel.Z p) (of_real l)) I_load).


(** What iteration [m] of the RL loop leaves in the arrays: the state it
    read at index [m], the state it solved for at index [m + 1] and the
    two voltages derived from it. *)
Definition rl_step_at (c : RL.circuit) (t : list Q) (s : RL.vars) (m : nat) : Prop :=
  ∃ t_n t_n1 x_n x_p,
    t !! m = Some t_n ∧ t !! S m = Some t_n1 ∧
    (∃ a, RL.i_L s !! m = Some a ∧ a == x_n) ∧
    RL.passo c (RL.resistência c t_n) x_n (RL.V_fonte c) = Ok x_p ∧
    RL.i_L s !! S m = Some x_p ∧
    RL.v_R s !! S m = Some (RL.resistência c t_n1 * x_p) ∧
    RL.v_L s !! S m = Some (RL.V_fonte c - RL.resistência c t_n1 * x_p).

(** Index 0 of the RL arrays holds the [np.zeros] fill. *)
Definition rl_index0 (s : RL.vars) : Prop :=
  RL.i_L s !! 0%nat = Some 0 ∧ RL.v_R s !! 0%nat = Some 0 ∧ RL.v_L s !! 0%nat = Some 0.

(** The arrays of a finished RL run, entry by entry. *)
Definition rl_trace (c : RL.circuit) (r : RL.series) : Prop :=
  let N := length (RL.t r) in
  ¬ RL.dt c == 0 ∧
  linspace 0 (RL.t_max c) (int (RL.t_max c / RL.dt c)) = Ok (RL.t r) ∧
  length (RL.i_L (RL.out r)) = N ∧
  length (RL.v_R (RL.out r)) = N ∧
  length (RL.v_L (RL.out r)) = N ∧
  ((0 < N)%nat → rl_index0 (RL.out r)) ∧
  ∀ m, (S m < N)%nat → rl_step_at c (RL.t r) (RL.out r) m.

(** The loop invariant of the RL script before iteration [n], for arrays
    of length [N]: the variable [x] is the entry [n] of [i_L], index 0 is
    untouched and every earlier iteration has left its entries. *)
Definition rl_inv (c : RL.circuit) (t : list Q) (N n : nat) (s : RL.vars) : Prop :=
  length (RL.i_L s) = N ∧ length (RL.v_R s) = N ∧ length (RL.v_L s) = N ∧
  ((n < N)%nat → ∃ a, RL.i_L s !! n = Some a ∧ a == RL.x s) ∧
  ((0 < N)%nat → rl_index0 s) ∧
  ∀ m, (m < n)%nat → rl_step_at c t s m.

(** The same vocabulary for the RLC script. *)
Definition rlc_step_at (c : RLC.circuit) (t : list Q) (u_vec : vec2) (s : RLC.vars)
    (m : nat) : Prop :=
  ∃ t_n t_n1 x_n x_p,
    t !! m = Some t_n ∧ t !! S m = Some t_n1 ∧
    (∃ a b, RLC.i_L s !! m = Some a ∧ RLC.v_C s !! m = Some b ∧ vec_eq (a, b) x_n) ∧
    RLC.step c (RLC.R_load c t_n) x_n u_vec = Ok x_p ∧
    RLC.i_L s !! S m = Some x_p.1 ∧
    RLC.v_C s !! S m = Some x_p.2 ∧
    RLC.i_load s !! S m = Some (np_divide x_p.2 (RLC.R_load c t_n1)).

Definition rlc_index0 (s : RLC.vars) : Prop :=
  RLC.i_L s !! 0%nat = Some 0 ∧ RLC.v_C s !! 0%nat = Some 0 ∧
  RLC.i_load s !! 0%nat = Some (finite 0).

Definition rlc_trace (c : RLC.circuit) (r : RLC.series) : Prop :=
  let N := length (RLC.t r) in
  ¬ RLC.dt c == 0 ∧ ¬ RLC.L c == 0 ∧
  linspace 0 (RLC.t_max c) (int (RLC.t_max c / RLC.dt c)) = Ok (RLC.t r) ∧
  length (RLC.i_L (RLC.out r)) = N ∧
  length (RLC.v_C (RLC.out r)) = N ∧
  length (RLC.i_load (RLC.out r)) = N ∧
  ((0 < N)%nat → rlc_index0 (RLC.out r)) ∧
  ∀ m, (S m < N)%nat →
    rlc_step_at c (RLC.t r) (RLC.V_source c / RLC.L c, 0) (RLC.out r) m.

Definition rlc_inv (c : RLC.circuit) (t : list Q) (u_vec : vec2) (N n : nat)
    (s : RLC.vars) : Prop :=
  length (RLC.i_L s) = N ∧ length (RLC.v_C s) = N ∧ length (RLC.i_load s) = N ∧
  ((n < N)%nat →
     ∃ a b, RLC.i_L s !! n = Some a ∧ RLC.v_C s !! n = Some b ∧ vec_eq (a, b) (RLC.x s)) ∧
  ((0 < N)%nat → rlc_index0 s) ∧
  ∀ m, (m < n)%nat → rlc_step_at c t u_vec s m.

(** The trapezoidal equation of the RL circuit, with the resistance
    [R_left] in the left-hand coefficient and [R_right] in the right-hand
    side: [(1 - dt/2 * A(R_left)) * x_p = (1 + dt/2 * A(R_right)) * x_n + dt * B * u]. *)
Definition rl_trapezoid (c : RL.circuit) (R_left R_right x_n x_p : Q) : Prop :=
  RL.lado_esquerdo (RL.dt c) (- R_left / RL.L c) * x_p ==
  RL.lado_direito (RL.dt c) (- R_right / RL.L c) (1 / RL.L c) x_n (RL.V_fonte c).

(** The matrix that [RLC.A_load] builds for a load resistance. *)
Definition rlc_A (c : RLC.circuit) (R_load_n : Q) : mat2 :=
  ((0, -1 / RLC.L c), (1 / RLC.C c, -1 / (R_load_n * RLC.C c))).

(** The trapezoidal equation of the RLC circuit, with the load resistance
    [R_left] in the left-hand operator and [R_right] in the right-hand
    side. *)
Definition rlc_trapezoid (c : RLC.circuit) (R_left R_right : Q) (x_n x_p : vec2) : Prop :=
  vec_eq (matvec (RLC.left_side (RLC.dt c) (rlc_A c R_left)) x_p)
         (RLC.right_side_vector (RLC.dt c) (rlc_A c R_right) x_n
            (RLC.V_source c / RLC.L c, 0)).

(** ** Facts about the primitives *)

Lemma bind_Ok {A B : Type} (m : result A) (k : A → result B) (b : B) :
  bind m k = Ok b → ∃ a, m = Ok a ∧ k a = Ok b.
Proof. destruct m as [a|e]; simpl; [eauto | discriminate]. Qed.

Tactic Notation "inv_bind" hyp(H) "as" ident(a) ident(Ha) :=
  apply bind_Ok in H; destruct H as (a & Ha & H).

(** Closed comparisons of rationals, by evaluation. *)
Ltac Qeval := vm_compute; first [reflexivity | discriminate | intro; discriminate].

Lemma truediv_Ok (a b q : Q) : truediv a b = Ok q → ¬ b == 0 ∧ q = a / b.
Proof.
  unfold truediv. destruct (Qeq_bool b 0) eqn:E; [discriminate|].
  intros [= <-]. split; [by apply Qeq_bool_neq | done].
Qed.

Lemma truediv_nonzero (a b : Q) : ¬ b == 0 → truediv a b = Ok (a / b).
Proof.
  intros Hb. unfold truediv. destruct (Qeq_bool b 0) eqn:E; [|done].
  by apply Qeq_bool_eq in E.
Qed.

Lemma truediv_zero (a b : Q) : b == 0 → truediv a b = Raise ZeroDivisionError.
Proof. intros Hb. unfold truediv. by rewrite (Qeq_eq_bool _ _ Hb). Qed.

Lemma getitem_Ok {A : Type} (a : list A) (i : nat) (v : A) :
  getitem a i = Ok v ↔ a !! i = Some v.
Proof. unfold getitem. destruct (a !! i); split; congruence. Qed.

Lemma setitem_Ok {A : Type} (a b : list A) (i : nat) (v : A) :
  setitem a i v = Ok b ↔ (i < length a)%nat ∧ b = <[i := v]> a.
Proof.
  unfold setitem. case_decide; split.
  - by intros [= <-].
  - by intros [_ ->].
  - discriminate.
  - lia.
Qed.

Lemma setitem_lt {A : Type} (a : list A) (i : nat) (v : A) :
  (i < length a)%nat → setitem a i v = Ok (<[i := v]> a).
Proof. intros. by apply setitem_Ok. Qed.

Lemma zeros_Ok (n : Z) (a : list Q) :
  zeros n = Ok a ↔ (0 ≤ n)%Z ∧ a = replicate (Z.to_nat n) 0.
Proof.
  unfold zeros. destruct (Z.ltb_spec n 0); split.
  - discriminate.
  - lia.
  - by intros [= <-].
  - by intros [_ ->].
Qed.

Lemma Qltb_lt (a b : Q) : Qltb a b = true ↔ a < b.
Proof.
  unfold Qltb. rewrite negb_true_iff, <- not_true_iff_false, Qle_bool_iff.
  split; [apply Qnot_le_lt | apply Qlt_not_le].
Qed.

Lemma Qltb_ge (a b : Q) : Qltb a b = false ↔ b <= a.
Proof. unfold Qltb. by rewrite negb_false_iff, Qle_bool_iff. Qed.

Lemma inject_Z_nonzero (z : Z) : z ≠ 0%Z → ¬ inject_Z z == 0.
Proof. unfold Qeq. simpl. lia. Qed.

(** The grid of [linspace]: its length and each of its samples. *)
Lemma linspace_Ok (start stop : Q) (num : Z) (t : list Q) :
  linspace start stop num = Ok t →
  (0 ≤ num)%Z ∧ length t = Z.to_nat num ∧
  ∀ i : nat, (i < Z.to_nat num)%nat →
    ∃ t_i, t !! i = Some t_i ∧
      t_i == start + inject_Z (Z.of_nat i) * ((stop - start) / inject_Z (num - 1)).
Proof.
  unfold linspace. destruct (Z.ltb_spec num 0) as [|Hnum]; [discriminate|].
  intros [= <-]. split; [done|].
  set (f := λ i : nat, _). set (y := f <$> _).
  assert (Hy : ∀ i : nat, (i < Z.to_nat num)%nat → y !! i = Some (f i)).
  { intros i Hi. unfold y. by rewrite list_lookup_fmap, lookup_seq_lt. }
  assert (Hlen : length y = Z.to_nat num).
  { unfold y. by rewrite length_fmap, length_seq. }
  destruct (Z.ltb_spec 1 num) as [H1|H1].
  - split; [by rewrite length_insert|].
    intros i Hi. destruct (decide (i = Z.to_nat (num - 1))) as [->|Hne].
    + exists stop. split; [apply list_lookup_insert_eq; lia|].
      rewrite Z2Nat.id by lia. field.
      apply inject_Z_nonzero. lia.
    + exists (f i). split; [|unfold f; ring].
      rewrite list_lookup_insert_ne by done. by apply Hy.
  - split; [done|]. intros i Hi. exists (f i). split; [by apply Hy|unfold f; ring].
Qed.

Lemma linspace_total (start stop : Q) (num : Z) :
  (0 ≤ num)%Z → ∃ t, linspace start stop num = Ok t.
Proof. intros H. unfold linspace. destruct (Z.ltb_spec num 0); [lia|eauto]. Qed.

(** ** Loops over [range] *)

Lemma for_each_seq_inv {S : Type} (body : nat → S → result S) (P : nat → S → Prop)
    (k a : nat) (s s' : S) :
  P a s →
  (∀ n s1 s2, (a ≤ n < a + k)%nat → P n s1 → body n s1 = Ok s2 → P (Datatypes.S n) s2) →
  for_each body (seq a k) s = Ok s' →
  P (a + k)%nat s'.
Proof.
  revert a s. induction k as [|k IH]; intros a s H0 Hstep Hrun; simpl in Hrun.
  - injection Hrun as <-. by rewrite Nat.add_0_r.
  - destruct (body a s) as [s1|e] eqn:Hb; [|discriminate].
    replace (a + Datatypes.S k)%nat with (Datatypes.S a + k)%nat by lia.
    apply (IH (Datatypes.S a) s1); [|intros; eapply Hstep; [lia|done..]|done].
    eapply Hstep; [lia|done..].
Qed.

Lemma for_each_seq_total {S : Type} (body : nat → S → result S) (P : nat → S → Prop)
    (k a : nat) (s : S) :
  P a s →
  (∀ n s1, (a ≤ n < a + k)%nat → P n s1 → ∃ s2, body n s1 = Ok s2 ∧ P (Datatypes.S n) s2) →
  ∃ s', for_each body (seq a k) s = Ok s' ∧ P (a + k)%nat s'.
Proof.
  revert a s. induction k as [|k IH]; intros a s H0 Hstep; simpl.
  - exists s. by rewrite Nat.add_0_r.
  - destruct (Hstep a s) as (s1 & -> & H1); [lia|done|].
    replace (a + Datatypes.S k)%nat with (Datatypes.S a + k)%nat by lia.
    apply IH; [done|]. intros. apply Hstep; [lia|done].
Qed.

(** ** The RL loop *)

Lemma rl_step_at_insert (c : RL.circuit) (t : list Q) (s s' : RL.vars) (m : nat) :
  (∀ j, (j ≤ S m)%nat → RL.i_L s' !! j = RL.i_L s !! j) →
  (∀ j, (j ≤ S m)%nat → RL.v_R s' !! j = RL.v_R s !! j) →
  (∀ j, (j ≤ S m)%nat → RL.v_L s' !! j = RL.v_L s !! j) →
  rl_step_at c t s m → rl_step_at c t s' m.
Proof.
  intros Hi Hr Hl (t_n & t_n1 & x_n & x_p & ? & ? & (a & ? & ?) & ? & ? & ? & ?).
  exists t_n, t_n1, x_n, x_p.
  rewrite !Hi, Hr, Hl by lia. eauto 10.
Qed.

Lemma rl_iteration_inv (c : RL.circuit) (t : list Q) (N n : nat) (s s' : RL.vars) :
  rl_inv c t N n s →
  RL.iteration c t (RL.V_fonte c) n s = Ok s' →
  rl_inv c t N (S n) s'.
Proof.
  intros (Hli & Hlr & Hll & Hx & H0 & Hsteps) Hit. unfold RL.iteration in Hit.
  rewrite Nat.add_1_r in Hit.
  inv_bind Hit as t_n Ht_n. apply getitem_Ok in Ht_n.
  inv_bind Hit as x_p Hx_p.
  inv_bind Hit as i_L' Hi. apply setitem_Ok in Hi as [Hn ->].
  inv_bind Hit as t_n1 Ht_n1. apply getitem_Ok in Ht_n1.
  inv_bind Hit as i_n1 Hi_n1. apply getitem_Ok in Hi_n1.
  rewrite list_lookup_insert_eq in Hi_n1 by done. injection Hi_n1 as <-.
  inv_bind Hit as v_R' Hr. apply setitem_Ok in Hr as [Hn' ->].
  inv_bind Hit as v_n1 Hv_n1. apply getitem_Ok in Hv_n1.
  rewrite list_lookup_insert_eq in Hv_n1 by done. injection Hv_n1 as <-.
  inv_bind Hit as v_L' Hl. apply setitem_Ok in Hl as [Hn'' ->].
  injection Hit as <-. unfold rl_inv. simpl.
  rewrite !length_insert. split_and!; try done.
  - intros _. exists x_p. split; [by apply list_lookup_insert_eq|reflexivity].
  - intros HN. destruct (H0 HN) as (? & ? & ?).
    unfold rl_index0. simpl. by rewrite !list_lookup_insert_ne by lia.
  - intros m Hm. destruct (decide (m = n)) as [->|Hne].
    + destruct Hx as (b & Hb & Hbx); [lia|].
      exists t_n, t_n1, (RL.x s), x_p. simpl.
      rewrite !list_lookup_insert_eq by done.
      rewrite list_lookup_insert_ne by lia. eauto 10.
    + apply (rl_step_at_insert c t s); simpl;
        [intros; apply list_lookup_insert_ne; lia..|].
      apply Hsteps. lia.
Qed.

Lemma rl_inv_init (c : RL.circuit) (t : list Q) (N : nat) :
  rl_inv c t N 0
    {| RL.x := 0.0; RL.i_L := replicate N 0; RL.v_R := replicate N 0;
       RL.v_L := replicate N 0 |}.
Proof.
  unfold rl_inv, rl_index0. simpl. rewrite !length_replicate.
  split_and!; try done.
  - intros HN. exists 0. by rewrite lookup_replicate_2.
  - intros HN. by rewrite !lookup_replicate_2.
  - lia.
Qed.

(** Every finished RL run has the trace described by [rl_trace]. *)
Lemma rl_run_trace (c : RL.circuit) (r : RL.series) :
  RL.run c = Ok r → rl_trace c r.
Proof.
  intros Hrun. unfold RL.run in Hrun.
  inv_bind Hrun as q Hq. apply truediv_Ok in Hq as [Hdt ->].
  inv_bind Hrun as t Ht.
  destruct (linspace_Ok _ _ _ _ Ht) as (Hnum & Hlen & _).
  inv_bind Hrun as i_L Hi. apply zeros_Ok in Hi as [_ ->].
  inv_bind Hrun as v_R Hr. apply zeros_Ok in Hr as [_ ->].
  inv_bind Hrun as v_L Hl. apply zeros_Ok in Hl as [_ ->].
  inv_bind Hrun as s Hs. injection Hrun as <-.
  set (N := Z.to_nat (int (RL.t_max c / RL.dt c))) in *.
  apply (for_each_seq_inv _ (rl_inv c t N)) in Hs;
    [|apply rl_inv_init|intros; by eapply rl_iteration_inv].
  destruct Hs as (Hli & Hlr & Hll & _ & H0 & Hsteps).
  unfold rl_trace. simpl. rewrite Hlen. fold N.
  split_and!; try done.
  intros m Hm. apply Hsteps. simpl. lia.
Qed.

Lemma rl_passo_total (c : RL.circuit) (R_n x u : Q) :
  ¬ RL.L c == 0 →
  ¬ RL.lado_esquerdo (RL.dt c) (- R_n / RL.L c) == 0 →
  RL.passo c R_n x u =
    Ok (RL.lado_direito (RL.dt c) (- R_n / RL.L c) (1 / RL.L c) x u
        / RL.lado_esquerdo (RL.dt c) (- R_n / RL.L c)).
Proof.
  intros HL Hl. unfold RL.passo.
  rewrite (truediv_nonzero _ _ HL). simpl.
  rewrite (truediv_nonzero _ _ HL). simpl.
  by apply truediv_nonzero.
Qed.

Lemma rl_passo_Ok (c : RL.circuit) (R_n x u x_p : Q) :
  RL.passo c R_n x u = Ok x_p →
  ¬ RL.L c == 0 ∧ ¬ RL.lado_esquerdo (RL.dt c) (- R_n / RL.L c) == 0 ∧
  x_p = RL.lado_direito (RL.dt c) (- R_n / RL.L c) (1 / RL.L c) x u
        / RL.lado_esquerdo (RL.dt c) (- R_n / RL.L c).
Proof.
  unfold RL.passo. intros H.
  inv_bind H as A HA. apply truediv_Ok in HA as [HL ->].
  inv_bind H as B HB. apply truediv_Ok in HB as [_ ->].
  by apply truediv_Ok in H as [Hl ->].
Qed.

(** The RL script runs to completion whenever its divisions are defined. *)
Lemma rl_run_total (c : RL.circuit) :
  ¬ RL.dt c == 0 →
  (0 ≤ int (RL.t_max c / RL.dt c))%Z →
  ¬ RL.L c == 0 →
  (∀ τ, ¬ RL.lado_esquerdo (RL.dt c) (- RL.resistência c τ / RL.L c) == 0) →
  ∃ r, RL.run c = Ok r.
Proof.
  intros Hdt Hn HL Hl. unfold RL.run.
  rewrite (truediv_nonzero _ _ Hdt). simpl.
  destruct (linspace_total 0 (RL.t_max c) _ Hn) as [t Ht]. rewrite Ht. simpl.
  destruct (linspace_Ok _ _ _ _ Ht) as (_ & Hlen & _).
  rewrite (proj2 (zeros_Ok _ _) (conj Hn eq_refl)). simpl.
  set (N := Z.to_nat (int (RL.t_max c / RL.dt c))) in *.
  set (P := λ (n : nat) (s : RL.vars),
         length (RL.i_L s) = N ∧ length (RL.v_R s) = N ∧ length (RL.v_L s) = N).
  destruct (for_each_seq_total (RL.iteration c t (RL.V_fonte c)) P
              (Z.to_nat (int (RL.t_max c / RL.dt c) - 1)) 0
              {| RL.x := 0.0; RL.i_L := replicate N 0; RL.v_R := replicate N 0;
                 RL.v_L := replicate N 0 |}) as (s & Hs & _).
  - unfold P. simpl. by rewrite !length_replicate.
  - intros n s Hrange (Hli & Hlr & Hll). assert (S n < N)%nat as HSn by lia.
    destruct (lookup_lt_is_Some_2 t n) as [t_n Ht_n]; [lia|].
    destruct (lookup_lt_is_Some_2 t (S n)) as [t_n1 Ht_n1]; [lia|].
    unfold RL.iteration. rewrite Nat.add_1_r.
    rewrite (proj2 (getitem_Ok _ _ _) Ht_n). simpl.
    rewrite rl_passo_total by done. simpl.
    rewrite setitem_lt by lia. simpl.
    rewrite (proj2 (getitem_Ok _ _ _) Ht_n1). simpl.
    unfold getitem. rewrite list_lookup_insert_eq by lia. simpl.
    rewrite setitem_lt by lia. simpl.
    rewrite list_lookup_insert_eq by lia. simpl.
    rewrite setitem_lt by lia. simpl.
    eexists. split; [done|]. unfold P. simpl. by rewrite !length_insert.
  - unfold range. rewrite Hs. simpl. eauto.
Qed.

(** ** The RLC loop *)

Lemma rlc_step_at_insert (c : RLC.circuit) (t : list Q) (u_vec : vec2)
    (s s' : RLC.vars) (m : nat) :
  (∀ j, (j ≤ S m)%nat → RLC.i_L s' !! j = RLC.i_L s !! j) →
  (∀ j, (j ≤ S m)%nat → RLC.v_C s' !! j = RLC.v_C s !! j) →
  (∀ j, (j ≤ S m)%nat → RLC.i_load s' !! j = RLC.i_load s !! j) →
  rlc_step_at c t u_vec s m → rlc_step_at c t u_vec s' m.
Proof.
  intros Hi Hc Hl (t_n & t_n1 & x_n & x_p & ? & ? & (a & b & ? & ? & ?) & ? & ? & ? & ?).
  exists t_n, t_n1, x_n, x_p.
  rewrite !Hi, !Hc, Hl by lia. eauto 12.
Qed.

Lemma rlc_iteration_inv (c : RLC.circuit) (t : list Q) (u_vec : vec2) (N n : nat)
    (s s' : RLC.vars) :
  rlc_inv c t u_vec N n s →
  RLC.iteration c t u_vec n s = Ok s' →
  rlc_inv c t u_vec N (S n) s'.
Proof.
  intros (Hli & Hlc & Hll & Hx & H0 & Hsteps) Hit. unfold RLC.iteration in Hit.
  rewrite Nat.add_1_r in Hit.
  inv_bind Hit as t_n Ht_n. apply getitem_Ok in Ht_n.
  inv_bind Hit as x_p Hx_p.
  inv_bind Hit as i_L' Hi. apply setitem_Ok in Hi as [Hn ->].
  inv_bind Hit as v_C' Hc. apply setitem_Ok in Hc as [Hn' ->].
  inv_bind Hit as v_n1 Hv_n1. apply getitem_Ok in Hv_n1.
  rewrite list_lookup_insert_eq in Hv_n1 by done. injection Hv_n1 as <-.
  inv_bind Hit as t_n1 Ht_n1. apply getitem_Ok in Ht_n1.
  inv_bind Hit as i_load' Hl. apply setitem_Ok in Hl as [Hn'' ->].
  injection Hit as <-. unfold rlc_inv. simpl.
  rewrite !length_insert. split_and!; try done.
  - intros _. exists x_p.1, x_p.2.
    rewrite !list_lookup_insert_eq by done. by destruct x_p.
  - intros HN. destruct (H0 HN) as (? & ? & ?).
    unfold rlc_index0. simpl. by rewrite !list_lookup_insert_ne by lia.
  - intros m Hm. destruct (decide (m = n)) as [->|Hne].
    + destruct Hx as (a & b & Ha & Hb & Hab); [lia|].
      exists t_n, t_n1, (RLC.x s), x_p. simpl.
      rewrite !list_lookup_insert_eq by done.
      rewrite !list_lookup_insert_ne by lia. eauto 12.
    + apply (rlc_step_at_insert c t u_vec s); simpl;
        [intros; apply list_lookup_insert_ne; lia..|].
      apply Hsteps. lia.
Qed.

Lemma rlc_inv_init (c : RLC.circuit) (t : list Q) (u_vec : vec2) (N : nat) :
  rlc_inv c t u_vec N 0
    {| RLC.x := (0.0, 0.0); RLC.i_L := replicate N 0; RLC.v_C := replicate N 0;
       RLC.i_load := finite <$> replicate N 0 |}.
Proof.
  unfold rlc_inv, rlc_index0. simpl.
  rewrite length_fmap, !length_replicate. split_and!; try done.
  - intros HN. exists 0, 0. by rewrite !lookup_replicate_2.
  - intros HN. by rewrite list_lookup_fmap, !lookup_replicate_2.
  - lia.
Qed.

(** Every finished RLC run has the trace described by [rlc_trace]. *)
Lemma rlc_run_trace (c : RLC.circuit) (r : RLC.series) :
  RLC.run c = Ok r → rlc_trace c r.
Proof.
  intros Hrun. unfold RLC.run in Hrun.
  inv_bind Hrun as q Hq. apply truediv_Ok in Hq as [Hdt ->].
  inv_bind Hrun as t Ht.
  destruct (linspace_Ok _ _ _ _ Ht) as (Hnum & Hlen & _).
  inv_bind Hrun as i_L Hi. apply zeros_Ok in Hi as [_ ->].
  inv_bind Hrun as v_C Hc. apply zeros_Ok in Hc as [_ ->].
  inv_bind Hrun as i_load Hl. apply zeros_Ok in Hl as [_ ->].
  inv_bind Hrun as u0 Hu. apply truediv_Ok in Hu as [HL ->].
  inv_bind Hrun as s Hs. injection Hrun as <-.
  set (N := Z.to_nat (int (RLC.t_max c / RLC.dt c))) in *.
  apply (for_each_seq_inv _ (rlc_inv c t (RLC.V_source c / RLC.L c, 0) N)) in Hs;
    [|apply rlc_inv_init|intros; by eapply rlc_iteration_inv].
  destruct Hs as (Hli & Hlc & Hll & _ & H0 & Hsteps).
  unfold rlc_trace. simpl. rewrite Hlen. fold N.
  split_and!; try done.
  intros m Hm. apply Hsteps. simpl. lia.
Qed.

Lemma rlc_A_load_Ok (c : RLC.circuit) (R_load_n : Q) (A : mat2) :
  RLC.A_load c R_load_n = Ok A →
  ¬ RLC.L c == 0 ∧ ¬ RLC.C c == 0 ∧ ¬ R_load_n * RLC.C c == 0 ∧
  A = ((0, -1 / RLC.L c), (1 / RLC.C c, -1 / (R_load_n * RLC.C c))).
Proof.
  unfold RLC.A_load. intros H.
  inv_bind H as a01 H01. apply truediv_Ok in H01 as [HL ->].
  inv_bind H as a10 H10. apply truediv_Ok in H10 as [HC ->].
  inv_bind H as a11 H11. apply truediv_Ok in H11 as [HRC ->].
  by injection H as <-.
Qed.

Lemma rlc_A_load_total (c : RLC.circuit) (R_load_n : Q) :
  ¬ RLC.L c == 0 → ¬ RLC.C c == 0 → ¬ R_load_n * RLC.C c == 0 →
  RLC.A_load c R_load_n =
    Ok ((0, -1 / RLC.L c), (1 / RLC.C c, -1 / (R_load_n * RLC.C c))).
Proof.
  intros HL HC HRC. unfold RLC.A_load.
  by rewrite !truediv_nonzero.
Qed.

Lemma solve_Ok (a : mat2) (b x : vec2) :
  solve a b = Ok x →
  ¬ det a == 0 ∧
  x = ((b.1 * a.2.2 - a.1.2 * b.2) / det a, (a.1.1 * b.2 - a.2.1 * b.1) / det a).
Proof.
  unfold solve. destruct (Qeq_bool (det a) 0) eqn:E; [discriminate|].
  intros [= <-]. split; [by apply Qeq_bool_neq|done].
Qed.

Lemma solve_total (a : mat2) (b : vec2) :
  ¬ det a == 0 → ∃ x, solve a b = Ok x.
Proof.
  intros Hd. unfold solve. destruct (Qeq_bool (det a) 0) eqn:E; [|eauto].
  by apply Qeq_bool_eq in E.
Qed.

(** What [solve] returns does solve the system. *)
Lemma solve_sound (a : mat2) (b x : vec2) :
  solve a b = Ok x → vec_eq (matvec a x) b.
Proof.
  intros H. apply solve_Ok in H as [Hd ->].
  destruct a as [[a00 a01] [a10 a11]], b as [b0 b1].
  unfold vec_eq, matvec, det in *. simpl in *. split; field; done.
Qed.

(** The RLC script runs to completion whenever its divisions are defined
    and no left-hand matrix is singular. *)
Lemma rlc_run_total (c : RLC.circuit) :
  ¬ RLC.dt c == 0 →
  (0 ≤ int (RLC.t_max c / RLC.dt c))%Z →
  ¬ RLC.L c == 0 → ¬ RLC.C c == 0 →
  (∀ τ, ¬ RLC.R_load c τ * RLC.C c == 0) →
  (∀ τ A, RLC.A_load c (RLC.R_load c τ) = Ok A → ¬ det (RLC.left_side (RLC.dt c) A) == 0) →
  ∃ r, RLC.run c = Ok r.
Proof.
  intros Hdt Hn HL HC HR Hdet. unfold RLC.run.
  rewrite (truediv_nonzero _ _ Hdt). simpl.
  destruct (linspace_total 0 (RLC.t_max c) _ Hn) as [t Ht]. rewrite Ht. simpl.
  destruct (linspace_Ok _ _ _ _ Ht) as (_ & Hlen & _).
  rewrite (proj2 (zeros_Ok _ _) (conj Hn eq_refl)). simpl.
  rewrite (truediv_nonzero _ _ HL). simpl.
  set (N := Z.to_nat (int (RLC.t_max c / RLC.dt c))) in *.
  set (u_vec := (RLC.V_source c / RLC.L c, 0)).
  set (P := λ (n : nat) (s : RLC.vars),
         length (RLC.i_L s) = N ∧ length (RLC.v_C s) = N ∧ length (RLC.i_load s) = N).
  destruct (for_each_seq_total (RLC.iteration c t u_vec) P
              (Z.to_nat (int (RLC.t_max c / RLC.dt c) - 1)) 0
              {| RLC.x := (0.0, 0.0); RLC.i_L := replicate N 0; RLC.v_C := replicate N 0;
                 RLC.i_load := finite <$> replicate N 0 |}) as (s & Hs & _).
  - unfold P. simpl. by rewrite length_fmap, !length_replicate.
  - intros n s Hrange (Hli & Hlc & Hll). assert (S n < N)%nat as HSn by lia.
    destruct (lookup_lt_is_Some_2 t n) as [t_n Ht_n]; [lia|].
    destruct (lookup_lt_is_Some_2 t (S n)) as [t_n1 Ht_n1]; [lia|].
    unfold RLC.iteration. rewrite Nat.add_1_r.
    rewrite (proj2 (getitem_Ok _ _ _) Ht_n). simpl.
    unfold RLC.step. rewrite rlc_A_load_total by done. simpl.
    edestruct solve_total as [x_p ->].
    { apply (Hdet t_n). by apply rlc_A_load_total. }
    simpl. rewrite !setitem_lt by lia. simpl.
    unfold getitem at 1. rewrite list_lookup_insert_eq by lia. simpl.
    rewrite (proj2 (getitem_Ok _ _ _) Ht_n1). simpl.
    rewrite setitem_lt by lia. simpl.
    eexists. split; [done|]. unfold P. simpl. by rewrite !length_insert.
  - unfold range. rewrite Hs. simpl. eauto.
Qed.

(** ** The parameter schedules *)

Lemma pegar_resistência_before (time : Q) :
  time < 0.05 → RL.pegar_resistência time = 10.0.
Proof. intros H. unfold RL.pegar_resistência. by rewrite (proj2 (Qltb_lt _ _) H). Qed.

Lemma pegar_resistência_after (time : Q) :
  0.05 <= time → RL.pegar_resistência time = 1.0.
Proof. intros H. unfold RL.pegar_resistência. by rewrite (proj2 (Qltb_ge _ _) H). Qed.

Lemma load_resistance_before (time_step : Q) :
  time_step < 0.005 → RLC.load_resistance time_step = RLC.R_load_initial.
Proof. intros H. unfold RLC.load_resistance. by rewrite (proj2 (Qltb_lt _ _) H). Qed.

Lemma load_resistance_after (time_step : Q) :
  0.005 <= time_step → RLC.load_resistance time_step = RLC.R_load_initial / 2.
Proof. intros H. unfold RLC.load_resistance. by rewrite (proj2 (Qltb_ge _ _) H). Qed.

(** C2. For every non-negative time the two schedules are piecewise
    constant with the breakpoint on the post-event side: the pre-event
    value is returned exactly when the time is below the threshold, and
    the post-event value at the threshold and at every later time
    (10 then 1 at 0.05 s for the RL resistance, 50 then 25 at 0.005 s for
    the RLC load). *)
Theorem C2_schedule_breakpoint_inclusive (time : Q) :
  0 <= time →
  (RL.pegar_resistência time == 10 ↔ time < 0.05) ∧
  (RL.pegar_resistência time == 1 ↔ 0.05 <= time) ∧
  (RLC.load_resistance time == 50 ↔ time < 0.005) ∧
  (RLC.load_resistance time == 25 ↔ 0.005 <= time).
Proof.
  intros _.
  destruct (Qlt_le_dec time 0.05) as [H|H];
    [rewrite (pegar_resistência_before _ H)|rewrite (pegar_resistência_after _ H)];
    (destruct (Qlt_le_dec time 0.005) as [H'|H'];
      [rewrite (load_resistance_before _ H')|rewrite (load_resistance_after _ H')]);
    unfold RLC.R_load_initial; split_and!; split; intros; try done; try lra.
Qed.

Lemma C2_witness :
  (RL.pegar_resistência 0.05 == 10 ↔ 0.05 < 0.05) ∧
  (RL.pegar_resistência 0.05 == 1 ↔ 0.05 <= 0.05) ∧
  (RLC.load_resistance 0.05 == 50 ↔ 0.05 < 0.005) ∧
  (RLC.load_resistance 0.05 == 25 ↔ 0.005 <= 0.05).
Proof. apply (C2_schedule_breakpoint_inclusive 0.05). lra. Defined.

(** ** The scalar solve of the RL step *)

Lemma rl_lado_esquerdo_pos (dt L R : Q) :
  0 < dt → 0 < L → 0 <= R → 1 <= RL.lado_esquerdo dt (- R / L).
Proof.
  intros Hdt HL HR. unfold RL.lado_esquerdo.
  assert (0 <= R / L) as HRL by (apply Qle_shift_div_l; lra).
  assert (- R / L == - (R / L)) as -> by (field; lra).
  assert (dt / 2 == dt * (1 # 2)) as -> by field.
  generalize dependent (R / L). intros k Hk. nra.
Qed.

(** C8. For the RL topology the left-hand coefficient
    [1 - (dt/2) * (-R/L)] is non-zero for every [dt > 0], [L > 0] and
    [R >= 0], and the division that solves for the next state is defined:
    the step returns a value and raises nothing. *)
Theorem C8_rl_left_coefficient_nonzero (c : RL.circuit) (R_n : Q) :
  0 < RL.dt c → 0 < RL.L c → 0 <= R_n →
  ¬ RL.lado_esquerdo (RL.dt c) (- R_n / RL.L c) == 0 ∧
  ∀ x u, ∃ x_próximo, RL.passo c R_n x u = Ok x_próximo.
Proof.
  intros Hdt HL HR.
  pose proof (rl_lado_esquerdo_pos _ _ _ Hdt HL HR) as Hpos.
  split; [lra|]. intros x u. eexists. apply rl_passo_total; lra.
Qed.

Lemma C8_witness :
  ¬ RL.lado_esquerdo (RL.dt RL.script) (- 10.0 / RL.L RL.script) == 0 ∧
  ∀ x u, ∃ x_próximo, RL.passo RL.script 10.0 x u = Ok x_próximo.
Proof. apply (C8_rl_left_coefficient_nonzero RL.script 10.0); Qeval. Defined.

(** ** Derived outputs *)

(** C10. In the RL script, at every index [n >= 1] the stored voltages
    satisfy [v_R[n] + v_L[n] = V_fonte]; at index 0 both are 0, so
    their sum is 0 and not [V_fonte] (for a source voltage other than 0). *)
Theorem C10_rl_kirchhoff_voltage (c : RL.circuit) (r : RL.series) :
  RL.run c = Ok r →
  (∀ n a b, (1 ≤ n)%nat →
     RL.v_R (RL.out r) !! n = Some a → RL.v_L (RL.out r) !! n = Some b →
     a + b == RL.V_fonte c) ∧
  ((0 < length (RL.t r))%nat →
     RL.v_R (RL.out r) !! 0%nat = Some 0 ∧ RL.v_L (RL.out r) !! 0%nat = Some 0 ∧
     (¬ RL.V_fonte c == 0 → ¬ 0 + 0 == RL.V_fonte c)).
Proof.
  intros Hrun. apply rl_run_trace in Hrun as (_ & _ & _ & Hlr & _ & H0 & Hsteps).
  split.
  - intros [|m] a b Hn Ha Hb; [lia|].
    destruct (Hsteps m) as (t_n & t_n1 & x_n & x_p & _ & _ & _ & _ & _ & HR & HL).
    { apply lookup_lt_Some in Ha. lia. }
    rewrite HR in Ha. rewrite HL in Hb. injection Ha as <-. injection Hb as <-. ring.
  - intros HN. destruct (H0 HN) as (_ & ? & ?). split_and!; [done..|].
    intros HV Hsum. apply HV. by rewrite <- Hsum.
Qed.

Lemma C10_witness :
  ∃ r, RL.run rl_coarse = Ok r ∧
    (∀ n a b, (1 ≤ n)%nat →
       RL.v_R (RL.out r) !! n = Some a → RL.v_L (RL.out r) !! n = Some b →
       a + b == RL.V_fonte rl_coarse) ∧
    ((0 < length (RL.t r))%nat →
       RL.v_R (RL.out r) !! 0%nat = Some 0 ∧ RL.v_L (RL.out r) !! 0%nat = Some 0 ∧
       (¬ RL.V_fonte rl_coarse == 0 → ¬ 0 + 0 == RL.V_fonte rl_coarse)).
Proof.
  eexists. split; [vm_compute; reflexivity|].
  apply (C10_rl_kirchhoff_voltage rl_coarse). vm_compute. reflexivity.
Defined.

(** C3. The outputs stored at an index are computed from the state
    solved for that index and the parameter valid at that index's time:
    in the RL script [v_R[i] = R(t[i]) * i_L[i]] (and
    [v_L[i] = V_fonte - v_R[i]]) for every index [i >= 1]; in the RLC
    script [i_load[i] = v_C[i] / R_load(t[i])] for every index [i], index
    0 included, where both sides are 0 for a load resistance other than
    0 at the first instant. *)
Theorem C3_outputs_at_post_step_parameters :
  (∀ (c : RL.circuit) (r : RL.series), RL.run c = Ok r →
     ∀ (i : nat) (x_i t_i : Q), (1 ≤ i)%nat →
       RL.i_L (RL.out r) !! i = Some x_i → RL.t r !! i = Some t_i →
       RL.v_R (RL.out r) !! i = Some (RL.resistência c t_i * x_i) ∧
       RL.v_L (RL.out r) !! i = Some (RL.V_fonte c - RL.resistência c t_i * x_i)) ∧
  (∀ (c : RLC.circuit) (r : RLC.series), RLC.run c = Ok r →
     ∀ (i : nat) (v_i t_i : Q),
       RLC.v_C (RLC.out r) !! i = Some v_i → RLC.t r !! i = Some t_i →
       (i = 0%nat → ¬ RLC.R_load c t_i == 0) →
       ∃ y, RLC.i_load (RLC.out r) !! i = Some y ∧
            float64_eq y (np_divide v_i (RLC.R_load c t_i))).
Proof.
  split.
  - intros c r Hrun [|m] x_i t_i Hi Hx Ht; [lia|].
    apply rl_run_trace in Hrun as (_ & _ & Hli & _ & _ & _ & Hsteps).
    destruct (Hsteps m) as (t_n & t_n1 & x_n & x_p & _ & Ht1 & _ & _ & Hp & HR & HL).
    { apply lookup_lt_Some in Hx. lia. }
    rewrite Ht in Ht1. injection Ht1 as <-.
    rewrite Hx in Hp. by injection Hp as <-.
  - intros c r Hrun i v_i t_i Hv Ht Hi0.
    apply rlc_run_trace in Hrun as (_ & _ & _ & _ & Hlc & _ & H0 & Hsteps).
    destruct i as [|m].
    + destruct H0 as (_ & Hv0 & Hl0); [apply lookup_lt_Some in Ht; lia|].
      rewrite Hv in Hv0. injection Hv0 as ->.
      exists (finite 0). split; [done|].
      unfold np_divide. destruct (Qeq_bool _ 0) eqn:E.
      * apply Qeq_bool_eq in E. by destruct Hi0.
      * simpl. apply Qeq_bool_neq in E. by field.
    + destruct (Hsteps m) as (t_n & t_n1 & x_n & x_p & _ & Ht1 & _ & _ & _ & Hc & Hl).
      { apply lookup_lt_Some in Hv. lia. }
      rewrite Ht in Ht1. injection Ht1 as <-.
      rewrite Hv in Hc. injection Hc as ->.
      eexists. split; [done|]. by destruct (np_divide _ _).
Qed.

Lemma C3_witness :
  (∃ r, RL.run rl_coarse = Ok r ∧
     ∀ (i : nat) (x_i t_i : Q), (1 ≤ i)%nat →
       RL.i_L (RL.out r) !! i = Some x_i → RL.t r !! i = Some t_i →
       RL.v_R (RL.out r) !! i = Some (RL.resistência rl_coarse t_i * x_i) ∧
       RL.v_L (RL.out r) !! i =
         Some (RL.V_fonte rl_coarse - RL.resistência rl_coarse t_i * x_i)) ∧
  (∃ r, RLC.run rlc_coarse = Ok r ∧
     ∀ (i : nat) (v_i t_i : Q),
       RLC.v_C (RLC.out r) !! i = Some v_i → RLC.t r !! i = Some t_i →
       (i = 0%nat → ¬ RLC.R_load rlc_coarse t_i == 0) →
       ∃ y, RLC.i_load (RLC.out r) !! i = Some y ∧
            float64_eq y (np_divide v_i (RLC.R_load rlc_coarse t_i))).
Proof.
  split; eexists; (split; [vm_compute; reflexivity|]).
  - apply (proj1 C3_outputs_at_post_step_parameters rl_coarse).
    vm_compute. reflexivity.
  - apply (proj2 C3_outputs_at_post_step_parameters rlc_coarse).
    vm_compute. reflexivity.
Defined.

(** ** The time grid *)

Lemma int_le (q : Q) : (0 < int q)%Z → inject_Z (int q) <= q.
Proof.
  destruct q as [n d]. unfold int. simpl. intros H.
  assert (0 ≤ n)%Z as Hn.
  { destruct (Z.lt_ge_cases n 0) as [Hn|Hn]; [|lia].
    pose proof (Z.quot_opp_l n (Zpos d) ltac:(lia)).
    pose proof (Z.quot_pos (- n) (Zpos d) ltac:(lia) ltac:(lia)). lia. }
  rewrite Z.quot_div_nonneg by lia.
  apply (Qfloor_le (n # d)).
Qed.

(** Consecutive samples of [linspace 0 stop num] are [stop / (num - 1)]
    apart. *)
Lemma linspace_spacing (stop : Q) (num : Z) (t : list Q) (i : nat) (a b : Q) :
  linspace 0 stop num = Ok t →
  t !! i = Some a → t !! S i = Some b →
  b - a == stop / inject_Z (num - 1).
Proof.
  intros Ht Ha Hb. destruct (linspace_Ok _ _ _ _ Ht) as (Hnum & Hlen & Hgrid).
  pose proof (lookup_lt_Some _ _ _ Hb) as Hi. rewrite Hlen in Hi.
  destruct (Hgrid i) as (a' & Ha' & Ea); [lia|].
  destruct (Hgrid (S i)) as (b' & Hb' & Eb); [lia|].
  rewrite Ha in Ha'. injection Ha' as <-. rewrite Hb in Hb'. injection Hb' as <-.
  rewrite Ea, Eb, Nat2Z.inj_succ. unfold Z.succ. rewrite inject_Z_plus.
  field. apply inject_Z_nonzero. lia.
Qed.

(** With [n_steps = int(t_max / dt)] samples, that spacing is larger
    than [dt]. *)
Lemma spacing_exceeds_dt (t_max dt : Q) :
  0 < dt → (2 ≤ int (t_max / dt))%Z →
  dt < t_max / inject_Z (int (t_max / dt) - 1).
Proof.
  intros Hdt HN. pose proof (int_le (t_max / dt) ltac:(lia)) as Hle.
  set (N := int (t_max / dt)) in *.
  assert (0 < inject_Z (N - 1)) as Hpos.
  { change 0 with (inject_Z 0). rewrite <- Zlt_Qlt. lia. }
  apply Qlt_shift_div_l; [done|].
  assert (inject_Z N * dt <= t_max) as Hmul.
  { assert (t_max == t_max / dt * dt) as -> by (field; lra).
    apply Qmult_le_compat_r; lra. }
  unfold Z.sub. rewrite inject_Z_plus, inject_Z_opp. change (inject_Z 1) with 1.
  clear Hle Hpos. set (k := inject_Z N) in *. clearbody k. nra.
Qed.

(** C4. The time grid starts at 0 and is equally spaced and strictly
    increasing, but its spacing is [t_max / (n_steps - 1)], which is
    larger than the configured [dt] for every positive [dt]: the samples
    are not [dt] apart. *)
Theorem C4_grid_spacing_is_not_dt :
  (∀ (c : RL.circuit) (r : RL.series), RL.run c = Ok r → 0 < RL.dt c →
     length (RL.t r) = Z.to_nat (int (RL.t_max c / RL.dt c)) ∧
     (∀ a, RL.t r !! 0%nat = Some a → a == 0) ∧
     ∀ i a b, RL.t r !! i = Some a → RL.t r !! S i = Some b →
       b - a == RL.t_max c / inject_Z (int (RL.t_max c / RL.dt c) - 1) ∧
       RL.dt c < b - a) ∧
  (∀ (c : RLC.circuit) (r : RLC.series), RLC.run c = Ok r → 0 < RLC.dt c →
     length (RLC.t r) = Z.to_nat (int (RLC.t_max c / RLC.dt c)) ∧
     (∀ a, RLC.t r !! 0%nat = Some a → a == 0) ∧
     ∀ i a b, RLC.t r !! i = Some a → RLC.t r !! S i = Some b →
       b - a == RLC.t_max c / inject_Z (int (RLC.t_max c / RLC.dt c) - 1) ∧
       RLC.dt c < b - a).
Proof.
  assert (∀ t_max dt t, linspace 0 t_max (int (t_max / dt)) = Ok t → 0 < dt →
            length t = Z.to_nat (int (t_max / dt)) ∧
            (∀ a, t !! 0%nat = Some a → a == 0) ∧
            ∀ i a b, t !! i = Some a → t !! S i = Some b →
              b - a == t_max / inject_Z (int (t_max / dt) - 1) ∧ dt < b - a) as Hgrid.
  { intros t_max dt t Ht Hdt.
    destruct (linspace_Ok _ _ _ _ Ht) as (Hnum & Hlen & Hsamples).
    split_and!; [done| |].
    - intros a Ha. pose proof (lookup_lt_Some _ _ _ Ha) as H0. rewrite Hlen in H0.
      destruct (Hsamples 0%nat H0) as (a' & Ha' & Heq).
      rewrite Ha in Ha'. injection Ha' as <-. rewrite Heq. simpl. ring.
    - intros i a b Ha Hb. pose proof (linspace_spacing _ _ _ _ _ _ Ht Ha Hb) as Hsp.
      split; [done|]. rewrite Hsp. apply spacing_exceeds_dt; [done|].
      apply lookup_lt_Some in Hb. lia. }
  split.
  - intros c r Hrun Hdt. apply rl_run_trace in Hrun as (_ & Ht & _). by apply Hgrid.
  - intros c r Hrun Hdt. apply rlc_run_trace in Hrun as (_ & _ & Ht & _). by apply Hgrid.
Qed.

(** ** The scripts as written *)

Lemma rl_script_n_steps : int (RL.t_max RL.script / RL.dt RL.script) = 10000%Z.
Proof. vm_compute. reflexivity. Qed.

Lemma rlc_script_n_steps : int (RLC.t_max RLC.script / RLC.dt RLC.script) = 10000%Z.
Proof. vm_compute. reflexivity. Qed.

(** In binary64 the two quotients [t_max / dt] are exactly [10000.0], so
    [n_steps] is 10000 in the scripts as Python runs them too. *)
#[warning="-inexact-float"]
Lemma binary64_n_steps :
  PrimFloat.eqb (0.1 / 1e-5) 10000 = true ∧ PrimFloat.eqb (0.01 / 1e-6) 10000 = true.
Proof. split; vm_compute; reflexivity. Qed.

(** In binary64, with the samples computed as [i * step], the event of
    each script falls between the samples 4999 and 5000, as in [Q]. *)
#[warning="-inexact-float"]
Lemma binary64_event_step :
  PrimFloat.ltb (4999 * (0.1 / 9999)) 0.05 = true ∧
  PrimFloat.ltb (5000 * (0.1 / 9999)) 0.05 = false ∧
  PrimFloat.ltb (4999 * (0.01 / 9999)) 0.005 = true ∧
  PrimFloat.ltb (5000 * (0.01 / 9999)) 0.005 = false.
Proof. split_and!; vm_compute; reflexivity. Qed.

Lemma rl_script_total : ∃ r, RL.run RL.script = Ok r.
Proof.
  apply rl_run_total.
  - Qeval.
  - rewrite rl_script_n_steps. lia.
  - Qeval.
  - intros τ. simpl. unfold RL.pegar_resistência. destruct (Qltb τ 0.05); Qeval.
Qed.

(** The left-hand matrix of the RLC step is regular for positive
    parameters: its determinant is [1 + dt/(2RC) + dt²/(4LC)]. *)
Lemma rlc_left_side_det_pos (c : RLC.circuit) (R_load_n : Q) :
  0 < RLC.dt c → 0 < RLC.L c → 0 < RLC.C c → 0 < R_load_n →
  1 <= det (RLC.left_side (RLC.dt c) (rlc_A c R_load_n)).
Proof.
  intros Hdt HL HC HR.
  assert (det (RLC.left_side (RLC.dt c) (rlc_A c R_load_n)) ==
          1 + RLC.dt c / (2 * R_load_n * RLC.C c)
            + RLC.dt c * RLC.dt c / (4 * RLC.L c * RLC.C c)) as ->.
  { unfold det, RLC.left_side, rlc_A, mat_sub, mat_scale, eye2. simpl.
    field. split_and!; lra. }
  assert (0 <= RLC.dt c / (2 * R_load_n * RLC.C c)).
  { apply Qle_shift_div_l; nra. }
  assert (0 <= RLC.dt c * RLC.dt c / (4 * RLC.L c * RLC.C c)).
  { apply Qle_shift_div_l; nra. }
  lra.
Qed.

Lemma rlc_run_total_positive (c : RLC.circuit) :
  0 < RLC.dt c → (0 ≤ int (RLC.t_max c / RLC.dt c))%Z →
  0 < RLC.L c → 0 < RLC.C c → (∀ τ, 0 < RLC.R_load c τ) →
  ∃ r, RLC.run c = Ok r.
Proof.
  intros Hdt Hn HL HC HR.
  assert (∀ τ, ¬ RLC.R_load c τ * RLC.C c == 0) as HRC.
  { intros τ. specialize (HR τ). nra. }
  apply rlc_run_total; [lra|done|lra|lra|done|].
  intros τ A HA. apply rlc_A_load_Ok in HA as (_ & _ & _ & ->).
  pose proof (rlc_left_side_det_pos c (RLC.R_load c τ) Hdt HL HC (HR τ)). fold (rlc_A c (RLC.R_load c τ)). lra.
Qed.

Lemma rlc_script_total : ∃ r, RLC.run RLC.script = Ok r.
Proof.
  apply rlc_run_total_positive.
  - Qeval.
  - rewrite rlc_script_n_steps. lia.
  - Qeval.
  - Qeval.
  - intros τ. simpl. unfold RLC.load_resistance. destruct (Qltb τ 0.005); Qeval.
Qed.

Lemma C4_witness :
  (∃ r, RL.run RL.script = Ok r ∧
     length (RL.t r) = Z.to_nat 10000 ∧
     (∀ a, RL.t r !! 0%nat = Some a → a == 0) ∧
     ∀ i a b, RL.t r !! i = Some a → RL.t r !! S i = Some b →
       b - a == 0.1 / 9999 ∧ 1e-5 < b - a) ∧
  (∃ r, RLC.run RLC.script = Ok r ∧
     length (RLC.t r) = Z.to_nat 10000 ∧
     (∀ a, RLC.t r !! 0%nat = Some a → a == 0) ∧
     ∀ i a b, RLC.t r !! i = Some a → RLC.t r !! S i = Some b →
       b - a == 0.01 / 9999 ∧ 1e-6 < b - a).
Proof.
  split.
  - destruct rl_script_total as [r Hr]. exists r. split; [done|].
    pose proof (proj1 C4_grid_spacing_is_not_dt RL.script r Hr) as H.
    rewrite rl_script_n_steps in H. apply H. Qeval.
  - destruct rlc_script_total as [r Hr]. exists r. split; [done|].
    pose proof (proj2 C4_grid_spacing_is_not_dt RLC.script r Hr) as H.
    rewrite rlc_script_n_steps in H. apply H. Qeval.
Defined.

(** ** Index 0 *)

(** The first sample of the grid is the instant 0. *)
Lemma linspace_first (stop : Q) (num : Z) (t : list Q) (a : Q) :
  linspace 0 stop num = Ok t → t !! 0%nat = Some a → a == 0.
Proof.
  intros Ht Ha. destruct (linspace_Ok _ _ _ _ Ht) as (_ & Hlen & Hgrid).
  pose proof (lookup_lt_Some _ _ _ Ha) as H0. rewrite Hlen in H0.
  destruct (Hgrid 0%nat H0) as (a' & Ha' & Heq).
  rewrite Ha in Ha'. injection Ha' as <-. rewrite Heq. simpl. ring.
Qed.

(** C5, as stated, fails on the RL script as written: [v_L[0]] is 0,
    which is not [V_fonte - v_R[0] = 220]. *)
Lemma C5_counterexample :
  ∃ r, RL.run RL.script = Ok r ∧
    RL.v_R (RL.out r) !! 0%nat = Some 0 ∧
    RL.v_L (RL.out r) !! 0%nat = Some 0 ∧
    ¬ 0 == RL.V_fonte RL.script - 0.
Proof.
  destruct rl_script_total as [r Hr]. exists r. split; [done|].
  pose proof (rl_run_trace _ _ Hr) as (_ & Ht & _ & _ & _ & H0 & _).
  destruct (linspace_Ok _ _ _ _ Ht) as (_ & Hlen & _).
  rewrite rl_script_n_steps in Hlen.
  destruct H0 as (_ & ? & ?); [rewrite Hlen; lia|].
  split_and!; [done..|]. Qeval.
Qed.

(** C5, amended. Each run starts from the declared initial condition,
    state 0 at the instant 0, and every output array holds 0 at index 0,
    the fill of [np.zeros]. That is the output equation applied to the
    initial state for [v_R[0] = R(0) * 0] and, for a load resistance
    other than 0 at the first instant, for [i_load[0] = v_C[0] / R_load(0)];
    [v_L[0]] is 0 whatever [V_fonte] is. *)
Theorem C5_index0_is_zero_fill :
  (∀ (c : RL.circuit) (r : RL.series), RL.run c = Ok r →
     (0 < length (RL.t r))%nat →
     ∃ t_0, RL.t r !! 0%nat = Some t_0 ∧ t_0 == 0 ∧
       RL.i_L (RL.out r) !! 0%nat = Some 0 ∧
       RL.v_R (RL.out r) !! 0%nat = Some 0 ∧
       RL.v_L (RL.out r) !! 0%nat = Some 0 ∧
       0 == RL.resistência c t_0 * 0) ∧
  (∀ (c : RLC.circuit) (r : RLC.series), RLC.run c = Ok r →
     (0 < length (RLC.t r))%nat →
     ∃ t_0, RLC.t r !! 0%nat = Some t_0 ∧ t_0 == 0 ∧
       RLC.i_L (RLC.out r) !! 0%nat = Some 0 ∧
       RLC.v_C (RLC.out r) !! 0%nat = Some 0 ∧
       RLC.i_load (RLC.out r) !! 0%nat = Some (finite 0) ∧
       (¬ RLC.R_load c t_0 == 0 →
        float64_eq (finite 0) (np_divide 0 (RLC.R_load c t_0)))).
Proof.
  split.
  - intros c r Hrun HN.
    apply rl_run_trace in Hrun as (_ & Ht & _ & _ & _ & H0 & _).
    destruct (lookup_lt_is_Some_2 (RL.t r) 0%nat HN) as [t_0 Ht_0].
    destruct (H0 HN) as (? & ? & ?).
    exists t_0. split_and!; try done; [by eapply linspace_first|ring].
  - intros c r Hrun HN.
    apply rlc_run_trace in Hrun as (_ & _ & Ht & _ & _ & _ & H0 & _).
    destruct (lookup_lt_is_Some_2 (RLC.t r) 0%nat HN) as [t_0 Ht_0].
    destruct (H0 HN) as (? & ? & ?).
    exists t_0. split_and!; try done; [by eapply linspace_first|].
    intros HR. unfold np_divide. destruct (Qeq_bool _ 0) eqn:E.
    + by apply Qeq_bool_eq in E.
    + simpl. by field.
Qed.

Lemma C5_witness :
  (∃ r, RL.run rl_coarse = Ok r ∧
     ∃ t_0, RL.t r !! 0%nat = Some t_0 ∧ t_0 == 0 ∧
       RL.i_L (RL.out r) !! 0%nat = Some 0 ∧
       RL.v_R (RL.out r) !! 0%nat = Some 0 ∧
       RL.v_L (RL.out r) !! 0%nat = Some 0 ∧
       0 == RL.resistência rl_coarse t_0 * 0) ∧
  (∃ r, RLC.run rlc_coarse = Ok r ∧
     ∃ t_0, RLC.t r !! 0%nat = Some t_0 ∧ t_0 == 0 ∧
       RLC.i_L (RLC.out r) !! 0%nat = Some 0 ∧
       RLC.v_C (RLC.out r) !! 0%nat = Some 0 ∧
       RLC.i_load (RLC.out r) !! 0%nat = Some (finite 0) ∧
       (¬ RLC.R_load rlc_coarse t_0 == 0 →
        float64_eq (finite 0) (np_divide 0 (RLC.R_load rlc_coarse t_0)))).
Proof.
  split; eexists; (split; [vm_compute; reflexivity|]).
  - apply (proj1 C5_index0_is_zero_fill rl_coarse); [vm_compute; reflexivity|].
    vm_compute. lia.
  - apply (proj2 C5_index0_is_zero_fill rlc_coarse); [vm_compute; reflexivity|].
    vm_compute. lia.
Defined.

(** ** The equation each step solves *)

(** The RL step solves the trapezoidal equation with the resistance it
    was given on both sides. *)
Lemma rl_passo_trapezoid (c : RL.circuit) (R_n x x_p : Q) :
  RL.passo c R_n x (RL.V_fonte c) = Ok x_p → rl_trapezoid c R_n R_n x x_p.
Proof.
  intros H. apply rl_passo_Ok in H as (HL & Hl & ->).
  unfold rl_trapezoid. field. done.
Qed.

Lemma rl_trapezoid_proper (c : RL.circuit) (R_left R_right x x' x_p : Q) :
  x == x' → rl_trapezoid c R_left R_right x x_p → rl_trapezoid c R_left R_right x' x_p.
Proof. unfold rl_trapezoid, RL.lado_direito. by intros ->. Qed.

(** The RLC step does the same with the load resistance it was given. *)
Lemma rlc_step_trapezoid (c : RLC.circuit) (R_load_n : Q) (x x_p : vec2) :
  RLC.step c R_load_n x (RLC.V_source c / RLC.L c, 0) = Ok x_p →
  rlc_trapezoid c R_load_n R_load_n x x_p.
Proof.
  unfold RLC.step. intros H. inv_bind H as A HA.
  apply rlc_A_load_Ok in HA as (_ & _ & _ & ->).
  by apply solve_sound in H.
Qed.

Lemma rlc_trapezoid_proper (c : RLC.circuit) (R_left R_right : Q) (x x' x_p : vec2) :
  vec_eq x x' →
  rlc_trapezoid c R_left R_right x' x_p → rlc_trapezoid c R_left R_right x x_p.
Proof.
  destruct x as [x1 x2], x' as [y1 y2]. intros [E1 E2]. simpl in E1, E2.
  unfold rlc_trapezoid, vec_eq, RLC.right_side_vector, vec_add, matvec. simpl.
  by rewrite E1, E2.
Qed.

Lemma rl_run_trapezoid (c : RL.circuit) (r : RL.series) (n : nat) (t_n x_n x_p : Q) :
  RL.run c = Ok r →
  RL.t r !! n = Some t_n →
  RL.i_L (RL.out r) !! n = Some x_n →
  RL.i_L (RL.out r) !! S n = Some x_p →
  rl_trapezoid c (RL.resistência c t_n) (RL.resistência c t_n) x_n x_p.
Proof.
  intros Hrun Ht Hx Hp.
  apply rl_run_trace in Hrun as (_ & _ & Hli & _ & _ & _ & Hsteps).
  destruct (Hsteps n) as (t' & _ & x' & p' & Ht' & _ & (a & Ha & Hax) & Hpasso & Hp' & _).
  { apply lookup_lt_Some in Hp. lia. }
  rewrite Ht in Ht'. injection Ht' as <-.
  rewrite Hx in Ha. injection Ha as <-.
  rewrite Hp in Hp'. injection Hp' as <-.
  apply (rl_trapezoid_proper c _ _ x'); [done|]. by apply rl_passo_trapezoid.
Qed.

Lemma rlc_run_trapezoid (c : RLC.circuit) (r : RLC.series) (n : nat) (t_n : Q)
    (x_n x_p : vec2) :
  RLC.run c = Ok r →
  RLC.t r !! n = Some t_n →
  RLC.i_L (RLC.out r) !! n = Some x_n.1 →
  RLC.v_C (RLC.out r) !! n = Some x_n.2 →
  RLC.i_L (RLC.out r) !! S n = Some x_p.1 →
  RLC.v_C (RLC.out r) !! S n = Some x_p.2 →
  rlc_trapezoid c (RLC.R_load c t_n) (RLC.R_load c t_n) x_n x_p.
Proof.
  intros Hrun Ht Hi Hv Hpi Hpv.
  apply rlc_run_trace in Hrun as (_ & _ & _ & Hli & _ & _ & _ & Hsteps).
  destruct (Hsteps n)
    as (t' & _ & x' & p' & Ht' & _ & (a & b & Ha & Hb & Hab) & Hstep & Hpi' & Hpv' & _).
  { apply lookup_lt_Some in Hpi. lia. }
  rewrite Ht in Ht'. injection Ht' as <-.
  rewrite Hi in Ha. injection Ha as <-.
  rewrite Hv in Hb. injection Hb as <-.
  rewrite Hpi in Hpi'. injection Hpi' as Hp1.
  rewrite Hpv in Hpv'. injection Hpv' as Hp2.
  assert (x_p = p') as -> by (destruct x_p, p'; simpl in *; congruence).
  apply (rlc_trapezoid_proper c _ _ x_n x'); [by destruct x_n|].
  by apply rlc_step_trapezoid.
Qed.

(** C1, amended. In every step the left-hand operator and the right-hand
    side are both built from the system matrix for the parameter read at
    the start of the step: the state stored at index [n + 1] solves
    [(I - dt/2 * A(params(t_n))) * x[n+1] = (I + dt/2 * A(params(t_n))) * x[n] + dt * B * u]. *)
Theorem C1_step_uses_start_parameters_on_both_sides :
  (∀ (c : RL.circuit) (r : RL.series), RL.run c = Ok r →
     ∀ (n : nat) (t_n x_n x_p : Q),
       RL.t r !! n = Some t_n →
       RL.i_L (RL.out r) !! n = Some x_n →
       RL.i_L (RL.out r) !! S n = Some x_p →
       rl_trapezoid c (RL.resistência c t_n) (RL.resistência c t_n) x_n x_p) ∧
  (∀ (c : RLC.circuit) (r : RLC.series), RLC.run c = Ok r →
     ∀ (n : nat) (t_n : Q) (x_n x_p : vec2),
       RLC.t r !! n = Some t_n →
       RLC.i_L (RLC.out r) !! n = Some x_n.1 →
       RLC.v_C (RLC.out r) !! n = Some x_n.2 →
       RLC.i_L (RLC.out r) !! S n = Some x_p.1 →
       RLC.v_C (RLC.out r) !! S n = Some x_p.2 →
       rlc_trapezoid c (RLC.R_load c t_n) (RLC.R_load c t_n) x_n x_p).
Proof.
  split.
  - intros c r Hrun n t_n x_n x_p. by apply rl_run_trapezoid.
  - intros c r Hrun n t_n x_n x_p. by apply rlc_run_trapezoid.
Qed.

Lemma C1_witness :
  (∃ r, RL.run rl_coarse = Ok r ∧
     ∀ (n : nat) (t_n x_n x_p : Q),
       RL.t r !! n = Some t_n →
       RL.i_L (RL.out r) !! n = Some x_n →
       RL.i_L (RL.out r) !! S n = Some x_p →
       rl_trapezoid rl_coarse
         (RL.resistência rl_coarse t_n) (RL.resistência rl_coarse t_n) x_n x_p) ∧
  (∃ r, RLC.run rlc_coarse = Ok r ∧
     ∀ (n : nat) (t_n : Q) (x_n x_p : vec2),
       RLC.t r !! n = Some t_n →
       RLC.i_L (RLC.out r) !! n = Some x_n.1 →
       RLC.v_C (RLC.out r) !! n = Some x_n.2 →
       RLC.i_L (RLC.out r) !! S n = Some x_p.1 →
       RLC.v_C (RLC.out r) !! S n = Some x_p.2 →
       rlc_trapezoid rlc_coarse
         (RLC.R_load rlc_coarse t_n) (RLC.R_load rlc_coarse t_n) x_n x_p).
Proof.
  split; eexists; (split; [vm_compute; reflexivity|]).
  - apply (proj1 C1_step_uses_start_parameters_on_both_sides rl_coarse).
    vm_compute. reflexivity.
  - apply (proj2 C1_step_uses_start_parameters_on_both_sides rlc_coarse).
    vm_compute. reflexivity.
Defined.

(** ** Sign of the RL current *)

Lemma rl_passo_pos (c : RL.circuit) (R_n x u x_p : Q) :
  0 < RL.dt c → 0 < RL.L c → 0 <= R_n → RL.dt c * R_n <= 2 * RL.L c →
  0 <= x → 0 < u →
  RL.passo c R_n x u = Ok x_p → 0 < x_p.
Proof.
  intros Hdt HL HR Hsmall Hx Hu H.
  apply rl_passo_Ok in H as (_ & _ & ->).
  pose proof (rl_lado_esquerdo_pos _ _ _ Hdt HL HR) as Hle.
  apply Qlt_shift_div_l; [lra|]. rewrite Qmult_0_l.
  unfold RL.lado_direito.
  assert (0 < 1 / RL.L c) as Hk by (apply Qlt_shift_div_l; lra).
  assert (0 <= 1 + RL.dt c / 2 * (- R_n / RL.L c)) as Hcoef.
  { assert (1 + RL.dt c / 2 * (- R_n / RL.L c)
            == (2 * RL.L c - RL.dt c * R_n) / (2 * RL.L c)) as -> by (field; lra).
    apply Qle_shift_div_l; lra. }
  assert (0 < RL.dt c * (1 / RL.L c) * u).
  { apply Qmult_lt_0_compat; [apply Qmult_lt_0_compat|]; done. }
  assert (0 <= (1 + RL.dt c / 2 * (- R_n / RL.L c)) * x) by (by apply Qmult_le_0_compat).
  lra.
Qed.

(** With a positive source and a time step no larger than [2L/R], the
    current is positive at every index after the first. *)
Lemma rl_current_pos (c : RL.circuit) (r : RL.series) :
  RL.run c = Ok r →
  0 < RL.dt c → 0 < RL.L c → 0 < RL.V_fonte c →
  (∀ τ, 0 <= RL.resistência c τ ∧ RL.dt c * RL.resistência c τ <= 2 * RL.L c) →
  ∀ n a, RL.i_L (RL.out r) !! n = Some a → 0 <= a ∧ ((1 ≤ n)%nat → 0 < a).
Proof.
  intros Hrun Hdt HL HV HR.
  apply rl_run_trace in Hrun as (_ & _ & Hli & _ & _ & H0 & Hsteps).
  induction n as [|n IH]; intros a Ha.
  - destruct H0 as (H0 & _); [apply lookup_lt_Some in Ha; lia|].
    rewrite Ha in H0. injection H0 as ->. split; [lra|lia].
  - destruct (Hsteps n) as (t_n & _ & x_n & x_p & _ & _ & (b & Hb & Hbx) & Hpasso & Hp & _).
    { apply lookup_lt_Some in Ha. lia. }
    rewrite Ha in Hp. injection Hp as <-.
    destruct (IH b Hb) as [Hb0 _]. destruct (HR t_n) as [HR0 HR1].
    assert (0 < a); [|split; [lra|done]].
    eapply rl_passo_pos; [..|exact Hpasso]; try done. by rewrite <- Hbx.
Qed.

(** The samples of the grid of the RL script as written. *)
Lemma rl_script_grid (r : RL.series) (i : Z) (t_i : Q) :
  RL.run RL.script = Ok r → (0 ≤ i)%Z →
  RL.t r !! Z.to_nat i = Some t_i → t_i == inject_Z i * (0.1 / 9999).
Proof.
  intros Hrun Hi Ht. apply rl_run_trace in Hrun as (_ & Hlin & _).
  destruct (linspace_Ok _ _ _ _ Hlin) as (_ & Hlen & Hgrid).
  pose proof (lookup_lt_Some _ _ _ Ht) as Hlt. rewrite Hlen in Hlt.
  destruct (Hgrid _ Hlt) as (t' & Ht' & Heq).
  rewrite Ht in Ht'. injection Ht' as <-.
  rewrite Heq, rl_script_n_steps, Z2Nat.id by done.
  change (RL.t_max RL.script) with 0.1. change (inject_Z (10000 - 1)) with 9999.
  field.
Qed.

(** C1, as stated, fails on the RL script as written at the step that
    crosses the event: [t[4999] < 0.05 <= t[5000]], the loop builds the
    left-hand coefficient with [R(t[4999]) = 10], and the state it stores
    does not solve the equation whose left-hand coefficient uses
    [R(t[5000]) = 1]. *)
Lemma C1_counterexample :
  ∃ (r : RL.series) (t_n t_n1 x_n x_p : Q),
    RL.run RL.script = Ok r ∧
    RL.t r !! Z.to_nat 4999 = Some t_n ∧
    RL.t r !! Z.to_nat 5000 = Some t_n1 ∧
    RL.i_L (RL.out r) !! Z.to_nat 4999 = Some x_n ∧
    RL.i_L (RL.out r) !! Z.to_nat 5000 = Some x_p ∧
    RL.pegar_resistência t_n = 10.0 ∧ RL.pegar_resistência t_n1 = 1.0 ∧
    ¬ rl_trapezoid RL.script
        (RL.pegar_resistência t_n1) (RL.pegar_resistência t_n) x_n x_p.
Proof.
  destruct rl_script_total as [r Hr].
  pose proof (rl_run_trace _ _ Hr) as (_ & Hlin & Hli & _).
  destruct (linspace_Ok _ _ _ _ Hlin) as (_ & Hlen & _).
  rewrite rl_script_n_steps in Hlen.
  assert (Z.to_nat 5000 = S (Z.to_nat 4999)) as Esucc by lia.
  destruct (lookup_lt_is_Some_2 (RL.t r) (Z.to_nat 4999)) as [t_n Ht_n]; [lia|].
  destruct (lookup_lt_is_Some_2 (RL.t r) (Z.to_nat 5000)) as [t_n1 Ht_n1]; [lia|].
  destruct (lookup_lt_is_Some_2 (RL.i_L (RL.out r)) (Z.to_nat 4999)) as [x_n Hx_n]; [lia|].
  destruct (lookup_lt_is_Some_2 (RL.i_L (RL.out r)) (Z.to_nat 5000)) as [x_p Hx_p]; [lia|].
  exists r, t_n, t_n1, x_n, x_p.
  assert (RL.pegar_resistência t_n = 10.0) as HR.
  { apply pegar_resistência_before.
    rewrite (rl_script_grid r 4999 t_n Hr ltac:(lia) Ht_n). Qeval. }
  assert (RL.pegar_resistência t_n1 = 1.0) as HR1.
  { apply pegar_resistência_after.
    rewrite (rl_script_grid r 5000 t_n1 Hr ltac:(lia) Ht_n1). Qeval. }
  do 7 (split; [assumption|]).
  rewrite HR, HR1. intros Hclaim.
  assert (0 < x_p) as Hpos.
  { refine (proj2 (rl_current_pos RL.script r Hr _ _ _ _ (Z.to_nat 5000) x_p Hx_p) _);
      [Qeval..| |lia].
    intros τ. change (RL.resistência RL.script τ) with (RL.pegar_resistência τ).
    unfold RL.pegar_resistência. destruct (Qltb τ 0.05); split; Qeval. }
  rewrite Esucc in Hx_p.
  pose proof (rl_run_trapezoid RL.script r _ t_n x_n x_p Hr Ht_n Hx_n Hx_p) as Hcode.
  change (RL.resistência RL.script t_n) with (RL.pegar_resistência t_n) in Hcode.
  rewrite HR in Hcode.
  unfold rl_trapezoid in Hclaim, Hcode. rewrite <- Hclaim in Hcode.
  unfold RL.lado_esquerdo in Hcode.
  change (RL.dt RL.script) with (1 # 100000) in Hcode.
  change (RL.L RL.script) with (1 # 10) in Hcode.
  assert (1 - (1 # 100000) / 2 * (Qopp 10.0 / (1 # 10)) == 2001 # 2000) as E1 by reflexivity.
  assert (1 - (1 # 100000) / 2 * (Qopp 1.0 / (1 # 10)) == 20001 # 20000) as E2 by reflexivity.
  rewrite E1, E2 in Hcode. lra.
Qed.


(** ** Zero input *)

Lemma Qdiv_0_l (q : Q) : 0 / q == 0.
Proof. unfold Qdiv. ring. Qed.

Lemma rl_passo_zero (c : RL.circuit) (R_n x u x_p : Q) :
  x == 0 → u == 0 → RL.passo c R_n x u = Ok x_p → x_p == 0.
Proof.
  intros Hx Hu H. apply rl_passo_Ok in H as (_ & _ & ->).
  assert (RL.lado_direito (RL.dt c) (- R_n / RL.L c) (1 / RL.L c) x u == 0) as ->.
  { unfold RL.lado_direito. rewrite Hx, Hu. ring. }
  apply Qdiv_0_l.
Qed.

Lemma rl_zero_input (c : RL.circuit) (r : RL.series) :
  RL.V_fonte c == 0 → RL.run c = Ok r →
  ∀ n a, RL.i_L (RL.out r) !! n = Some a → a == 0.
Proof.
  intros HV Hrun. apply rl_run_trace in Hrun as (_ & _ & Hli & _ & _ & H0 & Hsteps).
  induction n as [|n IH]; intros a Ha.
  - destruct H0 as (H0 & _); [apply lookup_lt_Some in Ha; lia|].
    rewrite Ha in H0. by injection H0 as ->.
  - destruct (Hsteps n)
      as (t_n & t_n1 & x_n & x_p & _ & _ & (b & Hb & Hbx) & Hpasso & Hp & _).
    { apply lookup_lt_Some in Ha. lia. }
    rewrite Ha in Hp. injection Hp as <-.
    eapply rl_passo_zero; [|exact HV|exact Hpasso].
    rewrite <- Hbx. by apply IH.
Qed.

Lemma rlc_step_zero (c : RLC.circuit) (R_load_n : Q) (x u_vec x_p : vec2) :
  vec_eq x (0, 0) → vec_eq u_vec (0, 0) →
  RLC.step c R_load_n x u_vec = Ok x_p → vec_eq x_p (0, 0).
Proof.
  destruct x as [x1 x2], u_vec as [u1 u2]. intros [Hx1 Hx2] [Hu1 Hu2] H.
  simpl in Hx1, Hx2, Hu1, Hu2.
  unfold RLC.step in H. inv_bind H as A HA.
  apply solve_Ok in H as [_ ->].
  set (b := RLC.right_side_vector _ _ _ _).
  assert (b.1 == 0 ∧ b.2 == 0) as [Hb1 Hb2].
  { unfold b, RLC.right_side_vector, vec_add, matvec, vec_scale. simpl.
    rewrite Hx1, Hx2, Hu1, Hu2. split; ring. }
  clearbody b. set (M := RLC.left_side (RLC.dt c) A). clearbody M.
  unfold vec_eq. simpl. rewrite Hb1, Hb2. split.
  - assert (0 * M.2.2 - M.1.2 * 0 == 0) as -> by ring. apply Qdiv_0_l.
  - assert (M.1.1 * 0 - M.2.1 * 0 == 0) as -> by ring. apply Qdiv_0_l.
Qed.

Lemma rlc_zero_input (c : RLC.circuit) (r : RLC.series) :
  RLC.V_source c == 0 → RLC.run c = Ok r →
  ∀ n, (∀ a, RLC.i_L (RLC.out r) !! n = Some a → a == 0) ∧
       (∀ b, RLC.v_C (RLC.out r) !! n = Some b → b == 0).
Proof.
  intros HV Hrun.
  apply rlc_run_trace in Hrun as (_ & _ & _ & Hli & Hlc & _ & H0 & Hsteps).
  induction n as [|n [IHi IHv]].
  - split; intros a Ha; (destruct H0 as (Hi0 & Hv0 & _); [apply lookup_lt_Some in Ha; lia|]).
    + rewrite Ha in Hi0. by injection Hi0 as ->.
    + rewrite Ha in Hv0. by injection Hv0 as ->.
  - assert ((S n < length (RLC.t r))%nat →
            ∃ x_p, RLC.i_L (RLC.out r) !! S n = Some x_p.1 ∧
                   RLC.v_C (RLC.out r) !! S n = Some x_p.2 ∧ vec_eq x_p (0, 0)) as Hnext.
    { intros Hn.
      destruct (Hsteps n Hn)
        as (t_n & t_n1 & x_n & x_p & _ & _ & (a & b & Ha & Hb & Hab1 & Hab2)
            & Hstep & Hpi & Hpv & _).
      exists x_p. split_and!; [done..|].
      eapply rlc_step_zero; [| |exact Hstep].
      - simpl in Hab1, Hab2. split; simpl.
        + rewrite <- Hab1. by apply IHi.
        + rewrite <- Hab2. by apply IHv.
      - split; simpl; [|reflexivity]. rewrite HV. apply Qdiv_0_l. }
    split; intros a Ha.
    + destruct Hnext as (x_p & Hpi & _ & [E _]); [apply lookup_lt_Some in Ha; lia|].
      rewrite Ha in Hpi. by injection Hpi as ->.
    + destruct Hnext as (x_p & _ & Hpv & [_ E]); [apply lookup_lt_Some in Ha; lia|].
      rewrite Ha in Hpv. by injection Hpv as ->.
Qed.

(** C7, as stated, fails: with the source at 0, the initial state at 0
    and a load resistance that is 0 at the last instant of the grid, the
    last entry of [i_load] is the non-finite value NumPy stores for
    [0.0 / 0], not 0. *)
Lemma C7_counterexample :
  ∃ r t_3 v_3, RLC.run rlc_shorted_end = Ok r ∧
    RLC.V_source rlc_shorted_end == 0 ∧
    RLC.t r !! 3%nat = Some t_3 ∧ RLC.R_load rlc_shorted_end t_3 == 0 ∧
    RLC.v_C (RLC.out r) !! 3%nat = Some v_3 ∧ v_3 == 0 ∧
    RLC.i_load (RLC.out r) !! 3%nat = Some non_finite ∧
    ¬ float64_eq non_finite (finite 0).
Proof.
  eexists _, _, _. split; [vm_compute; reflexivity|].
  split_and!; [reflexivity|vm_compute; reflexivity..|intros []].
Qed.

(** C7, amended. With the source voltage at 0 and the initial state at
    0, for every parameter schedule and every index of a finished run,
    the state series ([i_L], [v_C]) and the voltages [v_R], [v_L] are
    0, and [i_load] is 0 at every index whose load resistance
    [R_load(t[n])] is not 0. *)
Theorem C7_zero_input_stays_zero :
  (∀ (c : RL.circuit) (r : RL.series), RL.V_fonte c == 0 → RL.run c = Ok r →
     ∀ n, (∀ a, RL.i_L (RL.out r) !! n = Some a → a == 0) ∧
          (∀ a, RL.v_R (RL.out r) !! n = Some a → a == 0) ∧
          (∀ a, RL.v_L (RL.out r) !! n = Some a → a == 0)) ∧
  (∀ (c : RLC.circuit) (r : RLC.series), RLC.V_source c == 0 → RLC.run c = Ok r →
     ∀ n, (∀ a, RLC.i_L (RLC.out r) !! n = Some a → a == 0) ∧
          (∀ a, RLC.v_C (RLC.out r) !! n = Some a → a == 0) ∧
          (∀ y t_n, RLC.i_load (RLC.out r) !! n = Some y → RLC.t r !! n = Some t_n →
             ¬ RLC.R_load c t_n == 0 → float64_eq y (finite 0))).
Proof.
  split.
  - intros c r HV Hrun n. pose proof (rl_zero_input c r HV Hrun) as Hzero.
    apply rl_run_trace in Hrun as (_ & _ & Hli & Hlr & Hll & H0 & Hsteps).
    split; [apply Hzero|].
    destruct n as [|n].
    + split; intros a Ha; (destruct H0 as (_ & Hr0 & Hl0); [apply lookup_lt_Some in Ha; lia|]).
      * rewrite Ha in Hr0. by injection Hr0 as ->.
      * rewrite Ha in Hl0. by injection Hl0 as ->.
    + assert ((S n < length (RL.t r))%nat →
              ∃ t_n1 x_p, x_p == 0 ∧
                RL.v_R (RL.out r) !! S n = Some (RL.resistência c t_n1 * x_p) ∧
                RL.v_L (RL.out r) !! S n
                  = Some (RL.V_fonte c - RL.resistência c t_n1 * x_p)) as Hnext.
      { intros Hn.
        destruct (Hsteps n Hn) as (t_n & t_n1 & x_n & x_p & _ & _ & _ & _ & Hp & HR & HL).
        exists t_n1, x_p. split_and!; [|done..]. by apply (Hzero (S n)). }
      split; intros a Ha.
      * destruct Hnext as (t_n1 & x_p & Hx & HR & _); [apply lookup_lt_Some in Ha; lia|].
        rewrite Ha in HR. injection HR as ->. rewrite Hx. ring.
      * destruct Hnext as (t_n1 & x_p & Hx & _ & HL); [apply lookup_lt_Some in Ha; lia|].
        rewrite Ha in HL. injection HL as ->. rewrite Hx, HV. ring.
  - intros c r HV Hrun n. destruct (rlc_zero_input c r HV Hrun n) as [Hi Hv].
    split_and!; [done..|].
    intros y t_n Hy Ht HR.
    pose proof (rlc_zero_input c r HV Hrun) as Hzero.
    apply rlc_run_trace in Hrun as (_ & _ & _ & _ & _ & Hll & H0 & Hsteps).
    destruct n as [|n].
    + destruct H0 as (_ & _ & Hl0); [apply lookup_lt_Some in Hy; lia|].
      rewrite Hy in Hl0. injection Hl0 as ->. simpl. reflexivity.
    + destruct (Hsteps n)
        as (t' & t_n1 & x_n & x_p & _ & Ht1 & _ & _ & _ & Hpv & Hl).
      { apply lookup_lt_Some in Hy. lia. }
      rewrite Ht in Ht1. injection Ht1 as <-.
      rewrite Hy in Hl. injection Hl as ->.
      unfold np_divide. destruct (Qeq_bool _ 0) eqn:E.
      * by apply Qeq_bool_eq in E.
      * simpl. rewrite (proj2 (Hzero (S n)) _ Hpv). apply Qdiv_0_l.
Qed.

Lemma C7_witness :
  (∃ r, RL.run rl_coarse_off = Ok r ∧
     ∀ n, (∀ a, RL.i_L (RL.out r) !! n = Some a → a == 0) ∧
          (∀ a, RL.v_R (RL.out r) !! n = Some a → a == 0) ∧
          (∀ a, RL.v_L (RL.out r) !! n = Some a → a == 0)) ∧
  (∃ r, RLC.run rlc_shorted_end = Ok r ∧
     ∀ n, (∀ a, RLC.i_L (RLC.out r) !! n = Some a → a == 0) ∧
          (∀ a, RLC.v_C (RLC.out r) !! n = Some a → a == 0) ∧
          (∀ y t_n, RLC.i_load (RLC.out r) !! n = Some y → RLC.t r !! n = Some t_n →
             ¬ RLC.R_load rlc_shorted_end t_n == 0 → float64_eq y (finite 0))).
Proof.
  split; eexists; (split; [vm_compute; reflexivity|]).
  - apply (proj1 C7_zero_input_stays_zero rl_coarse_off); [reflexivity|].
    vm_compute. reflexivity.
  - apply (proj2 C7_zero_input_stays_zero rlc_shorted_end); [reflexivity|].
    vm_compute. reflexivity.
Defined.


(** ** Degenerate parameters *)

Lemma linspace_negative (start stop : Q) (num : Z) :
  (num < 0)%Z → linspace start stop num = Raise ValueError.
Proof. intros H. unfold linspace. by destruct (Z.ltb_spec num 0); [|lia]. Qed.

Lemma zeros_nonneg (n : Z) : (0 ≤ n)%Z → zeros n = Ok (replicate (Z.to_nat n) 0).
Proof. intros H. by apply zeros_Ok. Qed.

Lemma range_first (n : Z) : (1 ≤ n)%Z → ∃ ns, range n = 0%nat :: ns.
Proof.
  intros H. unfold range. destruct (Z.to_nat n) as [|k] eqn:E; [lia|].
  simpl. eauto.
Qed.

Lemma range_empty (n : Z) : (n ≤ 0)%Z → range n = [].
Proof. intros H. unfold range. by replace (Z.to_nat n) with 0%nat by lia. Qed.

Lemma rl_dt_zero (c : RL.circuit) :
  RL.dt c == 0 → RL.run c = Raise ZeroDivisionError.
Proof. intros H. unfold RL.run. by rewrite (truediv_zero _ _ H). Qed.

Lemma rl_n_steps_negative (c : RL.circuit) :
  ¬ RL.dt c == 0 → (int (RL.t_max c / RL.dt c) < 0)%Z → RL.run c = Raise ValueError.
Proof.
  intros Hdt Hn. unfold RL.run. rewrite (truediv_nonzero _ _ Hdt). simpl.
  by rewrite linspace_negative.
Qed.

Lemma rl_L_zero (c : RL.circuit) :
  ¬ RL.dt c == 0 → RL.L c == 0 → (2 ≤ int (RL.t_max c / RL.dt c))%Z →
  RL.run c = Raise ZeroDivisionError.
Proof.
  intros Hdt HL Hn. unfold RL.run. rewrite (truediv_nonzero _ _ Hdt). simpl.
  destruct (linspace_total 0 (RL.t_max c) (int (RL.t_max c / RL.dt c))) as [t Ht]; [lia|].
  rewrite Ht. simpl. rewrite zeros_nonneg by lia. simpl.
  destruct (range_first (int (RL.t_max c / RL.dt c) - 1)) as [ns ->]; [lia|].
  destruct (linspace_Ok _ _ _ _ Ht) as (_ & Hlen & _).
  destruct (lookup_lt_is_Some_2 t 0%nat) as [t_0 Ht_0]; [lia|].
  simpl. unfold RL.iteration, RL.passo.
  rewrite (proj2 (getitem_Ok _ _ _) Ht_0). simpl.
  by rewrite (truediv_zero _ _ HL).
Qed.

Lemma rl_no_step (c : RL.circuit) :
  ¬ RL.dt c == 0 → (0 ≤ int (RL.t_max c / RL.dt c) ≤ 1)%Z →
  ∃ t, RL.run c = Ok (rl_untouched t).
Proof.
  intros Hdt Hn. unfold RL.run. rewrite (truediv_nonzero _ _ Hdt). simpl.
  destruct (linspace_total 0 (RL.t_max c) (int (RL.t_max c / RL.dt c))) as [t Ht]; [lia|].
  rewrite Ht. simpl. rewrite zeros_nonneg by lia. simpl.
  rewrite range_empty by lia. simpl.
  destruct (linspace_Ok _ _ _ _ Ht) as (_ & Hlen & _).
  exists t. unfold rl_untouched. by rewrite Hlen.
Qed.

Lemma rlc_dt_zero (c : RLC.circuit) :
  RLC.dt c == 0 → RLC.run c = Raise ZeroDivisionError.
Proof. intros H. unfold RLC.run. by rewrite (truediv_zero _ _ H). Qed.

Lemma rlc_n_steps_negative (c : RLC.circuit) :
  ¬ RLC.dt c == 0 → (int (RLC.t_max c / RLC.dt c) < 0)%Z → RLC.run c = Raise ValueError.
Proof.
  intros Hdt Hn. unfold RLC.run. rewrite (truediv_nonzero _ _ Hdt). simpl.
  by rewrite linspace_negative.
Qed.

Lemma rlc_L_zero (c : RLC.circuit) :
  ¬ RLC.dt c == 0 → (0 ≤ int (RLC.t_max c / RLC.dt c))%Z → RLC.L c == 0 →
  RLC.run c = Raise ZeroDivisionError.
Proof.
  intros Hdt Hn HL. unfold RLC.run. rewrite (truediv_nonzero _ _ Hdt). simpl.
  destruct (linspace_total 0 (RLC.t_max c) (int (RLC.t_max c / RLC.dt c))) as [t Ht]; [lia|].
  rewrite Ht. simpl. rewrite zeros_nonneg by lia. simpl.
  by rewrite (truediv_zero _ _ HL).
Qed.

Lemma rlc_C_zero (c : RLC.circuit) :
  ¬ RLC.dt c == 0 → ¬ RLC.L c == 0 → RLC.C c == 0 →
  (2 ≤ int (RLC.t_max c / RLC.dt c))%Z →
  RLC.run c = Raise ZeroDivisionError.
Proof.
  intros Hdt HL HC Hn. unfold RLC.run. rewrite (truediv_nonzero _ _ Hdt). simpl.
  destruct (linspace_total 0 (RLC.t_max c) (int (RLC.t_max c / RLC.dt c))) as [t Ht]; [lia|].
  rewrite Ht. simpl. rewrite zeros_nonneg by lia. simpl.
  rewrite (truediv_nonzero _ _ HL). simpl.
  destruct (range_first (int (RLC.t_max c / RLC.dt c) - 1)) as [ns ->]; [lia|].
  destruct (linspace_Ok _ _ _ _ Ht) as (_ & Hlen & _).
  destruct (lookup_lt_is_Some_2 t 0%nat) as [t_0 Ht_0]; [lia|].
  simpl. unfold RLC.iteration, RLC.step, RLC.A_load.
  rewrite (proj2 (getitem_Ok _ _ _) Ht_0). simpl.
  rewrite (truediv_nonzero _ _ HL). simpl.
  by rewrite (truediv_zero _ _ HC).
Qed.

Lemma rlc_no_step (c : RLC.circuit) :
  ¬ RLC.dt c == 0 → ¬ RLC.L c == 0 → (0 ≤ int (RLC.t_max c / RLC.dt c) ≤ 1)%Z →
  ∃ t, RLC.run c = Ok (rlc_untouched t).
Proof.
  intros Hdt HL Hn. unfold RLC.run. rewrite (truediv_nonzero _ _ Hdt). simpl.
  destruct (linspace_total 0 (RLC.t_max c) (int (RLC.t_max c / RLC.dt c))) as [t Ht]; [lia|].
  rewrite Ht. simpl. rewrite zeros_nonneg by lia. simpl.
  rewrite (truediv_nonzero _ _ HL). simpl.
  rewrite range_empty by lia. simpl.
  destruct (linspace_Ok _ _ _ _ Ht) as (_ & Hlen & _).
  exists t. unfold rlc_untouched. by rewrite Hlen.
Qed.

(** C6, as stated, fails: the scripts check nothing.  A negative time
    step is accepted, the RL script with [dt = -1] runs to its end and
    leaves empty series; a zero inductance is only met by the division
    [-R_n / L] inside the loop, which raises [ZeroDivisionError]. *)
Lemma C6_counterexample :
  RL.run (rl_script_with 0.1 (-1)) = Ok (rl_untouched []) ∧
  RL.run (rl_script_with 0 1e-5) = Raise ZeroDivisionError.
Proof. split; vm_compute; reflexivity. Qed.

(** C6, amended. Neither script validates its parameters, and there is no
    [DomainError] or [ConfigurationError].  [dt = 0] raises
    [ZeroDivisionError] when [n_steps] is computed; otherwise a negative
    [n_steps = int(t_max/dt)] raises [ValueError] when the grid is built
    and an [n_steps] of 0 or 1 is accepted, whatever the sign of [dt] and
    the value of [L] (RL) or [C] (RLC): the run ends with the series as
    allocated.  With at least two samples, [L = 0] in the RL script and
    [C = 0] in the RLC script raise [ZeroDivisionError] in the first
    iteration of the loop; [L = 0] in the RLC script raises it before the
    loop.  A run that raises returns no series. *)
Theorem C6_no_validation_only_arithmetic_errors :
  (∀ c : RL.circuit,
     (RL.dt c == 0 → RL.run c = Raise ZeroDivisionError) ∧
     (¬ RL.dt c == 0 → (int (RL.t_max c / RL.dt c) < 0)%Z →
        RL.run c = Raise ValueError) ∧
     (¬ RL.dt c == 0 → (0 ≤ int (RL.t_max c / RL.dt c) ≤ 1)%Z →
        ∃ t, RL.run c = Ok (rl_untouched t)) ∧
     (¬ RL.dt c == 0 → (2 ≤ int (RL.t_max c / RL.dt c))%Z → RL.L c == 0 →
        RL.run c = Raise ZeroDivisionError)) ∧
  (∀ c : RLC.circuit,
     (RLC.dt c == 0 → RLC.run c = Raise ZeroDivisionError) ∧
     (¬ RLC.dt c == 0 → (int (RLC.t_max c / RLC.dt c) < 0)%Z →
        RLC.run c = Raise ValueError) ∧
     (¬ RLC.dt c == 0 → (0 ≤ int (RLC.t_max c / RLC.dt c))%Z → RLC.L c == 0 →
        RLC.run c = Raise ZeroDivisionError) ∧
     (¬ RLC.dt c == 0 → (0 ≤ int (RLC.t_max c / RLC.dt c) ≤ 1)%Z → ¬ RLC.L c == 0 →
        ∃ t, RLC.run c = Ok (rlc_untouched t)) ∧
     (¬ RLC.dt c == 0 → (2 ≤ int (RLC.t_max c / RLC.dt c))%Z → ¬ RLC.L c == 0 →
        RLC.C c == 0 → RLC.run c = Raise ZeroDivisionError)).
Proof.
  split; intros c; split_and!.
  - apply rl_dt_zero.
  - apply rl_n_steps_negative.
  - apply rl_no_step.
  - intros. by apply rl_L_zero.
  - apply rlc_dt_zero.
  - apply rlc_n_steps_negative.
  - apply rlc_L_zero.
  - intros. by apply rlc_no_step.
  - intros. by apply rlc_C_zero.
Qed.

Lemma C6_witness :
  RL.run (rl_script_with 0.1 0) = Raise ZeroDivisionError ∧
  RL.run (rl_script_with 0.1 (-0.01)) = Raise ValueError ∧
  (∃ t, RL.run (rl_script_with 0 (-1)) = Ok (rl_untouched t)) ∧
  RL.run (rl_script_with 0 1e-5) = Raise ZeroDivisionError ∧
  RLC.run (rlc_script_with 0.01 1e-6 0) = Raise ZeroDivisionError ∧
  RLC.run (rlc_script_with 0.01 1e-6 (-0.001)) = Raise ValueError ∧
  RLC.run (rlc_script_with 0 1e-6 1e-6) = Raise ZeroDivisionError ∧
  (∃ t, RLC.run (rlc_script_with 0.01 0 (-1)) = Ok (rlc_untouched t)) ∧
  RLC.run (rlc_script_with 0.01 0 1e-6) = Raise ZeroDivisionError.
Proof.
  split_and!.
  - destruct (proj1 C6_no_validation_only_arithmetic_errors (rl_script_with 0.1 0))
      as (H & _). apply H. reflexivity.
  - destruct (proj1 C6_no_validation_only_arithmetic_errors (rl_script_with 0.1 (-0.01)))
      as (_ & H & _). apply H; [Qeval|vm_compute; reflexivity].
  - destruct (proj1 C6_no_validation_only_arithmetic_errors (rl_script_with 0 (-1)))
      as (_ & _ & H & _). apply H; [Qeval|vm_compute; split; discriminate].
  - destruct (proj1 C6_no_validation_only_arithmetic_errors (rl_script_with 0 1e-5))
      as (_ & _ & _ & H). apply H; [Qeval|vm_compute; discriminate|reflexivity].
  - destruct (proj2 C6_no_validation_only_arithmetic_errors (rlc_script_with 0.01 1e-6 0))
      as (H & _). apply H. reflexivity.
  - destruct (proj2 C6_no_validation_only_arithmetic_errors
                (rlc_script_with 0.01 1e-6 (-0.001)))
      as (_ & H & _). apply H; [Qeval|vm_compute; reflexivity].
  - destruct (proj2 C6_no_validation_only_arithmetic_errors (rlc_script_with 0 1e-6 1e-6))
      as (_ & _ & H & _). apply H; [Qeval|vm_compute; discriminate|reflexivity].
  - destruct (proj2 C6_no_validation_only_arithmetic_errors (rlc_script_with 0.01 0 (-1)))
      as (_ & _ & _ & H & _). apply H; [Qeval|vm_compute; split; discriminate|Qeval].
  - destruct (proj2 C6_no_validation_only_arithmetic_errors (rlc_script_with 0.01 0 1e-6))
      as (_ & _ & _ & _ & H). apply H; [Qeval|vm_compute; discriminate|Qeval|reflexivity].
Defined.

(** ** Energization at constant resistance *)

Lemma rl_constant_n_steps : int (RL.t_max rl_constant / RL.dt rl_constant) = 10000%Z.
Proof. vm_compute. reflexivity. Qed.

Lemma rl_constant_total : ∃ r, RL.run rl_constant = Ok r.
Proof.
  apply rl_run_total.
  - Qeval.
  - rewrite rl_constant_n_steps. lia.
  - Qeval.
  - intros τ. Qeval.
Qed.

(** One step at [R = 10], [L = 0.1], [V = 220], [dt = 1e-5]:
    [2001 x' = 1999 x + 44]. *)
Lemma rl_constant_passo (x x_p : Q) :
  RL.passo rl_constant 10.0 x 220.0 = Ok x_p → 2001 * x_p == 1999 * x + 44.
Proof.
  intros H. apply rl_passo_Ok in H as (_ & _ & ->).
  unfold RL.lado_direito, RL.lado_esquerdo.
  change (RL.dt rl_constant) with (1 # 100000).
  change (RL.L rl_constant) with (1 # 10).
  assert (Qopp 10.0 / (1 # 10) == - (100)) as -> by reflexivity.
  assert (1 / (1 # 10) == 10) as -> by reflexivity.
  field.
Qed.

Lemma rl_constant_steps (r : RL.series) (n : nat) (a b : Q) :
  RL.run rl_constant = Ok r →
  RL.i_L (RL.out r) !! n = Some a → RL.i_L (RL.out r) !! S n = Some b →
  2001 * b == 1999 * a + 44.
Proof.
  intros Hrun Ha Hb.
  apply rl_run_trace in Hrun as (_ & _ & Hli & _ & _ & _ & Hsteps).
  destruct (Hsteps n) as (t_n & t_n1 & x_n & x_p & _ & _ & (a' & Ha' & Hax) & Hpasso & Hp & _).
  { apply lookup_lt_Some in Hb. lia. }
  rewrite Ha in Ha'. injection Ha' as <-.
  rewrite Hb in Hp. injection Hp as <-.
  apply rl_constant_passo in Hpasso. rewrite Hpasso, Hax. reflexivity.
Qed.

Lemma rl_constant_first (r : RL.series) (a : Q) :
  RL.run rl_constant = Ok r → RL.i_L (RL.out r) !! 0%nat = Some a → a = 0.
Proof.
  intros Hrun Ha.
  apply rl_run_trace in Hrun as (_ & _ & Hli & _ & _ & H0 & _).
  destruct H0 as (H0 & _); [apply lookup_lt_Some in Ha; lia|].
  rewrite Ha in H0. by injection H0.
Qed.

(** The current stays between 0 and 22 A. *)
Lemma rl_constant_bounds (r : RL.series) :
  RL.run rl_constant = Ok r →
  ∀ n a, RL.i_L (RL.out r) !! n = Some a → 0 <= a <= 22.
Proof.
  intros Hrun. induction n as [|n IH]; intros a Ha.
  - rewrite (rl_constant_first r a Hrun Ha). lra.
  - destruct (lookup_lt_is_Some_2 (RL.i_L (RL.out r)) n) as [b Hb].
    { apply lookup_lt_Some in Ha. lia. }
    pose proof (rl_constant_steps r n b a Hrun Hb Ha). specialize (IH b Hb). lra.
Qed.

(** In the reals the current is [22 (1 - ρ^n)] with [ρ = 1999/2001]. *)
Lemma rl_constant_closed_form (r : RL.series) :
  RL.run rl_constant = Ok r →
  ∀ n a, RL.i_L (RL.out r) !! n = Some a →
    Q2R a = (22 - 22 * (1999 / 2001) ^ n)%R.
Proof.
  intros Hrun. induction n as [|n IH]; intros a Ha.
  - rewrite (rl_constant_first r a Hrun Ha). unfold Q2R. simpl. lra.
  - destruct (lookup_lt_is_Some_2 (RL.i_L (RL.out r)) n) as [b Hb].
    { apply lookup_lt_Some in Ha. lia. }
    pose proof (rl_constant_steps r n b a Hrun Hb Ha) as Hstep.
    apply Qeq_eqR in Hstep. rewrite Q2R_plus, !Q2R_mult, (IH b Hb) in Hstep.
    assert (Q2R 2001 = 2001%R) as E1 by (unfold Q2R; simpl; lra).
    assert (Q2R 1999 = 1999%R) as E2 by (unfold Q2R; simpl; lra).
    assert (Q2R 44 = 44%R) as E3 by (unfold Q2R; simpl; lra).
    rewrite E1, E2, E3 in Hstep. simpl. lra.
Qed.

Lemma exp_nat_mult (x : R) (n : nat) : exp (INR n * x) = (exp x ^ n)%R.
Proof.
  induction n as [|n IH].
  - simpl. rewrite Rmult_0_l. apply exp_0.
  - rewrite S_INR, Rmult_plus_distr_r, Rmult_1_l, exp_plus, IH. simpl. ring.
Qed.

Lemma rho_pow_upper (n : nat) :
  ((1999 / 2001) ^ n <= exp (INR n * (- (2 / 2001))))%R.
Proof.
  rewrite exp_nat_mult. apply pow_incr. split; [lra|].
  pose proof (exp_ineq1_le (- (2 / 2001))). lra.
Qed.

Lemma rho_pow_lower (n : nat) :
  (exp (INR n * (- (2 / 1999))) <= (1999 / 2001) ^ n)%R.
Proof.
  rewrite exp_nat_mult. apply pow_incr. split; [left; apply exp_pos|].
  rewrite exp_Ropp.
  pose proof (exp_ineq1_le (2 / 1999)) as H.
  assert (1999 / 2001 = / (1 + 2 / 1999))%R as -> by (field; lra).
  apply Rinv_le_contravar; lra.
Qed.

Lemma exp_10_lower : (13780 <= exp 10)%R.
Proof.
  replace 10%R with (INR 100 * (1 / 10))%R by (simpl; lra).
  rewrite exp_nat_mult.
  apply Rle_trans with ((11 / 10) ^ 100)%R.
  - unfold Rdiv. rewrite Rpow_mult_distr, pow_inv, !pow_IZR.
    apply Rmult_le_reg_r with (IZR (10 ^ Z.of_nat 100)).
    { apply IZR_lt. reflexivity. }
    rewrite Rmult_assoc, Rinv_l, Rmult_1_r.
    2:{ apply not_0_IZR. discriminate. }
    rewrite <- mult_IZR. apply IZR_le. vm_compute. discriminate.
  - apply pow_incr. pose proof (exp_ineq1_le (1 / 10)). lra.
Qed.

(** After 9999 steps [ρ^n] is within [4.5e-7] of [e^-10]. *)
Lemma rho_pow_9999 :
  (- (12 / (1989 * 13780)) <= (1999 / 2001) ^ Z.to_nat 9999 - exp (- 10)
   <= 12 / (1989 * 13780))%R.
Proof.
  assert (INR (Z.to_nat 9999) = 9999%R) as HN.
  { rewrite INR_IZR_INZ, Z2Nat.id by lia. reflexivity. }
  pose proof (rho_pow_upper (Z.to_nat 9999)) as Hup.
  pose proof (rho_pow_lower (Z.to_nat 9999)) as Hlo.
  rewrite HN in Hup, Hlo.
  replace (9999 * - (2 / 2001))%R with (- 10 + 12 / 2001)%R in Hup by lra.
  replace (9999 * - (2 / 1999))%R with (- 10 + - (8 / 1999))%R in Hlo by lra.
  rewrite exp_plus in Hup, Hlo.
  set (p := ((1999 / 2001) ^ Z.to_nat 9999)%R) in *. clearbody p.
  assert (0 < exp (- 10) <= / 13780)%R as [He0 He1].
  { split; [apply exp_pos|].
    replace (-10)%R with (Ropp 10) by lra. rewrite exp_Ropp.
    apply Rinv_le_contravar; [lra|apply exp_10_lower]. }
  assert (exp (12 / 2001) <= 2001 / 1989)%R as Hbig.
  { pose proof (exp_ineq1_le (- (12 / 2001))) as H.
    replace (12 / 2001)%R with (Ropp (- (12 / 2001)))%R by lra. rewrite exp_Ropp.
    assert (2001 / 1989 = / (1 + - (12 / 2001)))%R as -> by (field; lra).
    apply Rinv_le_contravar; lra. }
  pose proof (exp_ineq1_le (- (8 / 1999))) as Hsmall.
  pose proof (exp_pos (12 / 2001)) as Hpos.
  set (e := exp (- 10)) in *. clearbody e.
  set (u := exp (12 / 2001)) in *. clearbody u.
  set (v := exp (- (8 / 1999))) in *. clearbody v.
  split; nra.
Qed.

(** C9. For the RL topology with constant [R = 10.0], [L = 0.1],
    [V = 220.0] and zero initial current (time step and horizon as in the
    script), the computed current series is non-decreasing, never exceeds
    the steady-state value [V/R = 22 A], and its final sample is within
    [1e-5] of [22 (1 - e^(-t_max R/L))]. *)
Theorem C9_rl_energization_monotone_to_steady_state :
  RL.V_fonte rl_constant / 10.0 == 22 ∧
  ∃ r, RL.run rl_constant = Ok r ∧
    length (RL.i_L (RL.out r)) = Z.to_nat 10000 ∧
    (∀ n a b, RL.i_L (RL.out r) !! n = Some a → RL.i_L (RL.out r) !! S n = Some b →
       a <= b) ∧
    (∀ n a, RL.i_L (RL.out r) !! n = Some a → a <= 22) ∧
    (∀ a, RL.i_L (RL.out r) !! Z.to_nat 9999 = Some a →
       (Rabs (Q2R a
              - 22 * (1 - exp (- Q2R (RL.t_max rl_constant * 10.0 / RL.L rl_constant))))
        <= 1 / 100000)%R).
Proof.
  split; [reflexivity|].
  destruct rl_constant_total as [r Hr]. exists r. split; [exact Hr|].
  pose proof (rl_run_trace _ _ Hr) as (_ & Hlin & Hli & _).
  destruct (linspace_Ok _ _ _ _ Hlin) as (_ & Hlen & _).
  rewrite rl_constant_n_steps in Hlen.
  split_and!.
  - by rewrite Hli.
  - intros n a b Ha Hb.
    pose proof (rl_constant_steps r n a b Hr Ha Hb).
    pose proof (rl_constant_bounds r Hr n a Ha). lra.
  - intros n a Ha. by apply (rl_constant_bounds r Hr n a Ha).
  - intros a Ha. rewrite (rl_constant_closed_form r Hr _ a Ha).
    assert (Q2R (RL.t_max rl_constant * 10.0 / RL.L rl_constant) = 10%R) as ->.
    { rewrite (Qeq_eqR _ 10) by reflexivity. unfold Q2R. simpl. lra. }
    replace (Ropp 10) with (-10)%R by lra.
    pose proof rho_pow_9999 as Hrho.
    set (p := ((1999 / 2001) ^ Z.to_nat 9999)%R) in *. clearbody p.
    set (e := exp (-10)) in *. clearbody e.
    apply Rabs_le. lra.
Qed.

Lemma C9_witness :
  ∃ r, RL.run rl_constant = Ok r ∧
    ∀ n a, RL.i_L (RL.out r) !! n = Some a → a <= 22.
Proof.
  destruct (proj2 C9_rl_energization_monotone_to_steady_state)
    as (r & Hr & _ & _ & Hbound & _).
  exists r. split; [exact Hr|exact Hbound].
Defined.


(** ** The pi model *)

Lemma is_zero_true (a : complex) : is_zero a = true ↔ ceq a (of_real 0).
Proof.
  unfold is_zero, ceq. simpl. rewrite andb_true_iff, !Qeq_bool_iff. done.
Qed.

Lemma cdiv_Ok (a b q : complex) :
  cdiv a b = Ok q → is_zero b = false ∧ ceq (cmul q b) a.
Proof.
  unfold cdiv. destruct (is_zero b) eqn:E; [discriminate|]. intros [= <-].
  split; [done|].
  assert (¬ re b * re b + im b * im b == 0) as Hd.
  { intros Hd. apply not_true_iff_false in E. apply E, is_zero_true.
    unfold ceq. simpl. split; nra. }
  unfold ceq, cmul. simpl. split; field; done.
Qed.

Lemma cdiv_nonzero (a b : complex) :
  is_zero b = false → ∃ q, cdiv a b = Ok q.
Proof. intros E. unfold cdiv. rewrite E. eauto. Qed.

(** Halving never raises and halves both parts. *)
Lemma cdiv_2 (a : complex) :
  ∃ q, cdiv a (of_real 2) = Ok q ∧ re q == re a / 2 ∧ im q == im a / 2.
Proof.
  unfold cdiv. replace (is_zero (of_real 2)) with false by reflexivity.
  eexists. split; [done|]. simpl. split; field.
Qed.

Lemma pi_matrix_Ok (p : PiModel.line) (m : PiModel.abcd) :
  PiModel.pi_matrix p = Ok m →
  is_zero (PiModel.Y p) = false ∧
  ∃ Y_shunt,
    cdiv (cmul (PiModel.Y p) (of_real (PiModel.length p))) (of_real 2) = Ok Y_shunt ∧
    m = {| PiModel.A := cadd (of_real 1)
                          (cmul (cmul (PiModel.Z p) (of_real (PiModel.length p))) Y_shunt);
           PiModel.B := cmul (PiModel.Z p) (of_real (PiModel.length p));
           PiModel.C_abcd :=
             cadd (cmul (PiModel.Y p) (of_real (PiModel.length p)))
                  (cmul (cmul (cmul (PiModel.Z p) (of_real (PiModel.length p))) Y_shunt)
                        Y_shunt);
           PiModel.D := cadd (of_real 1)
                          (cmul (cmul (PiModel.Z p) (of_real (PiModel.length p))) Y_shunt) |}.
Proof.
  unfold PiModel.pi_matrix. intros H.
  inv_bind H as Y_shunt HY. inv_bind H as q Hq.
  apply cdiv_Ok in Hq as [Hz _]. injection H as <-. eauto.
Qed.

Lemma pi_matrix_total (p : PiModel.line) :
  is_zero (PiModel.Y p) = false → ∃ m, PiModel.pi_matrix p = Ok m.
Proof.
  intros HY. unfold PiModel.pi_matrix.
  destruct (cdiv_2 (cmul (PiModel.Y p) (of_real (PiModel.length p)))) as (q & -> & _).
  simpl. destruct (cdiv_nonzero (PiModel.Z p) (PiModel.Y p) HY) as [q' ->]. simpl. eauto.
Qed.

(** What a finished pi-model run holds, entry by entry. *)
Lemma pi_run_trace (p : PiModel.line) (o : PiModel.outputs) :
  PiModel.run p = Ok o →
  PiModel.pi_matrix p = Ok (PiModel.matrix o) ∧
  cdiv (of_real (PiModel.Vs p))
       (cadd (cmul (PiModel.A (PiModel.matrix o)) (of_real (PiModel.Z_load p)))
             (PiModel.B (PiModel.matrix o))) = Ok (PiModel.I_load o) ∧
  PiModel.V_load o = cmul (of_real (PiModel.Z_load p)) (PiModel.I_load o) ∧
  linspace 0 (PiModel.length p) (PiModel.n_points p) = Ok (PiModel.x o) ∧
  length (PiModel.V_x o) = length (PiModel.x o) ∧
  ∀ i l, PiModel.x o !! i = Some l →
    ∃ v, PiModel.V_x o !! i = Some v ∧
         pi_profile_sample p (PiModel.I_load o) (PiModel.V_load o) l v.
Proof.
  intros Hrun. unfold PiModel.run in Hrun.
  inv_bind Hrun as m Hm. inv_bind Hrun as I_load HI.
  inv_bind Hrun as x Hx. inv_bind Hrun as V0 HV0. apply zeros_Ok in HV0 as [Hn ->].
  inv_bind Hrun as V_x HVx. injection Hrun as <-. simpl.
  destruct (linspace_Ok _ _ _ _ Hx) as (_ & Hlen & _).
  set (V_load := cmul (of_real (PiModel.Z_load p)) I_load) in *.
  set (N := Z.to_nat (PiModel.n_points p)) in *.
  apply (for_each_seq_inv _
           (λ (k : nat) (V : list complex),
              length V = N ∧
              ∀ i l, (i < k)%nat → x !! i = Some l →
                ∃ v, V !! i = Some v ∧ pi_profile_sample p I_load V_load l v)) in HVx.
  - destruct HVx as [HlenV Hall]. split_and!; try done; [congruence|].
    intros i l Hl. apply (Hall i l); [|done].
    apply lookup_lt_Some in Hl. simpl. lia.
  - split; [by rewrite length_fmap, length_replicate|]. intros; lia.
  - intros k V V' Hk [HlenV Hall] Hit. unfold PiModel.iteration in Hit.
    inv_bind Hit as l Hl. apply getitem_Ok in Hl.
    inv_bind Hit as Ysp HY. apply setitem_Ok in Hit as [Hlt ->].
    split; [by rewrite length_insert|].
    intros i l' Hi Hl'. destruct (decide (i = k)) as [->|Hne].
    + rewrite Hl in Hl'. injection Hl' as <-.
      eexists. split; [by apply list_lookup_insert_eq|]. by exists Ysp.
    + rewrite list_lookup_insert_ne by done. apply Hall; [lia|done].
Qed.

(** The pi-model script completes whenever the shunt admittance and the
    denominator of the load current are not zero. *)
Lemma pi_run_total (p : PiModel.line) (m : PiModel.abcd) :
  PiModel.pi_matrix p = Ok m →
  is_zero (cadd (cmul (PiModel.A m) (of_real (PiModel.Z_load p))) (PiModel.B m)) = false →
  (0 ≤ PiModel.n_points p)%Z →
  ∃ o, PiModel.run p = Ok o.
Proof.
  intros Hm Hden Hn. unfold PiModel.run. rewrite Hm. simpl.
  destruct (cdiv_nonzero (of_real (PiModel.Vs p)) _ Hden) as [I_load ->]. simpl.
  destruct (linspace_total 0 (PiModel.length p) _ Hn) as [x Hx]. rewrite Hx. simpl.
  destruct (linspace_Ok _ _ _ _ Hx) as (_ & Hlen & _).
  rewrite zeros_nonneg by done. simpl.
  set (N := Z.to_nat (PiModel.n_points p)) in *.
  destruct (for_each_seq_total
              (PiModel.iteration p x I_load (cmul (of_real (PiModel.Z_load p)) I_load))
              (λ (_ : nat) (V : list complex), length V = N) N 0
              (of_real <$> replicate N 0)) as (V & HV & _).
  - by rewrite length_fmap, length_replicate.
  - intros k V Hk HlenV.
    destruct (lookup_lt_is_Some_2 x k) as [l Hl]; [lia|].
    unfold PiModel.iteration. rewrite (proj2 (getitem_Ok _ _ _) Hl). cbn [bind].
    destruct (cdiv_2 (cmul (PiModel.Y p) (of_real l))) as (q & -> & _). cbn [bind].
    rewrite setitem_lt by lia. eexists. split; [done|]. by rewrite length_insert.
  - unfold range. fold N. rewrite HV. simpl. eauto.
Qed.

Lemma pi_script_total : ∃ o, PiModel.run PiModel.script = Ok o.
Proof.
  destruct (pi_matrix_total PiModel.script) as [m Hm]; [vm_compute; reflexivity|].
  apply (pi_run_total PiModel.script m Hm); [|vm_compute; discriminate].
  assert (PiModel.pi_matrix PiModel.script = Ok m) as Hm' by exact Hm.
  vm_compute in Hm'. injection Hm' as <-. vm_compute. reflexivity.
Qed.

(** The matrix is reciprocal and symmetric: [A D - B C = 1] and [A = D]. *)
Lemma pi_matrix_reciprocal (p : PiModel.line) (m : PiModel.abcd) :
  PiModel.pi_matrix p = Ok m →
  ceq (cmul (PiModel.A m) (PiModel.D m))
      (cadd (of_real 1) (cmul (PiModel.B m) (PiModel.C_abcd m))) ∧
  PiModel.D m = PiModel.A m.
Proof.
  intros Hm. apply pi_matrix_Ok in Hm as (_ & Y_shunt & HY & ->).
  split; [|done]. simpl.
  destruct (cdiv_2 (cmul (PiModel.Y p) (of_real (PiModel.length p))))
    as (q & Hq & Hre & Him).
  rewrite Hq in HY. injection HY as <-.
  set (Zt := cmul (PiModel.Z p) (of_real (PiModel.length p))) in *.
  set (Yt := cmul (PiModel.Y p) (of_real (PiModel.length p))) in *.
  clearbody Zt Yt. destruct Zt as [z1 z2], Yt as [y1 y2], q as [q1 q2].
  simpl in Hre, Him. unfold ceq, cmul, cadd, of_real. simpl.
  rewrite Hre, Him. split; field.
Qed.

Lemma linspace_last (start stop : Q) (num : Z) (t : list Q) :
  linspace start stop num = Ok t → (2 ≤ num)%Z →
  t !! Z.to_nat (num - 1) = Some stop.
Proof.
  unfold linspace. destruct (Z.ltb_spec num 0); [discriminate|].
  intros [= <-] Hnum. destruct (Z.ltb_spec 1 num); [|lia].
  apply list_lookup_insert_eq. rewrite length_fmap, length_seq. lia.
Qed.

(** The load current solves the two-port equation at the sending end. *)
Lemma pi_terminal (p : PiModel.line) (o : PiModel.outputs) :
  PiModel.run p = Ok o →
  ceq (cadd (cmul (PiModel.A (PiModel.matrix o)) (PiModel.V_load o))
            (cmul (PiModel.B (PiModel.matrix o)) (PiModel.I_load o)))
      (of_real (PiModel.Vs p)).
Proof.
  intros Hrun. apply pi_run_trace in Hrun as (_ & HI & -> & _).
  apply cdiv_Ok in HI as [_ [Hre Him]].
  destruct (PiModel.A (PiModel.matrix o)) as [a1 a2],
           (PiModel.B (PiModel.matrix o)) as [b1 b2], (PiModel.I_load o) as [i1 i2].
  unfold ceq, cmul, cadd, of_real in *. simpl in *.
  split; (etransitivity; [|eassumption]); ring.
Qed.

(** X1. The ABCD matrix the pi-model script builds is reciprocal and
    symmetric for every line: [A D - B C = 1] and [D = A]. *)
Theorem X1_pi_matrix_reciprocal (p : PiModel.line) (o : PiModel.outputs) :
  PiModel.run p = Ok o →
  ceq (cmul (PiModel.A (PiModel.matrix o)) (PiModel.D (PiModel.matrix o)))
      (cadd (of_real 1)
            (cmul (PiModel.B (PiModel.matrix o)) (PiModel.C_abcd (PiModel.matrix o)))) ∧
  PiModel.D (PiModel.matrix o) = PiModel.A (PiModel.matrix o).
Proof.
  intros Hrun. apply pi_run_trace in Hrun as (Hm & _).
  by apply (pi_matrix_reciprocal p).
Qed.

Lemma X1_witness :
  ∃ o, PiModel.run PiModel.script = Ok o ∧
    ceq (cmul (PiModel.A (PiModel.matrix o)) (PiModel.D (PiModel.matrix o)))
        (cadd (of_real 1)
              (cmul (PiModel.B (PiModel.matrix o)) (PiModel.C_abcd (PiModel.matrix o)))) ∧
    PiModel.D (PiModel.matrix o) = PiModel.A (PiModel.matrix o).
Proof.
  destruct pi_script_total as [o Ho]. exists o. split; [exact Ho|].
  exact (X1_pi_matrix_reciprocal PiModel.script o Ho).
Defined.

(** X2. The load values the script computes are consistent with the
    source: [V_load = Z_load I_load] and [A V_load + B I_load = Vs]. *)
Theorem X2_pi_load_matches_source (p : PiModel.line) (o : PiModel.outputs) :
  PiModel.run p = Ok o →
  PiModel.V_load o = cmul (of_real (PiModel.Z_load p)) (PiModel.I_load o) ∧
  ceq (cadd (cmul (PiModel.A (PiModel.matrix o)) (PiModel.V_load o))
            (cmul (PiModel.B (PiModel.matrix o)) (PiModel.I_load o)))
      (of_real (PiModel.Vs p)).
Proof.
  intros Hrun. split; [|by apply pi_terminal].
  by apply pi_run_trace in Hrun as (_ & _ & ? & _).
Qed.

Lemma X2_witness :
  ∃ o, PiModel.run PiModel.script = Ok o ∧
    PiModel.V_load o = cmul (of_real (PiModel.Z_load PiModel.script)) (PiModel.I_load o) ∧
    ceq (cadd (cmul (PiModel.A (PiModel.matrix o)) (PiModel.V_load o))
              (cmul (PiModel.B (PiModel.matrix o)) (PiModel.I_load o)))
        (of_real (PiModel.Vs PiModel.script)).
Proof.
  destruct pi_script_total as [o Ho]. exists o. split; [exact Ho|].
  exact (X2_pi_load_matches_source PiModel.script o Ho).
Defined.

(** X3. The voltage profile has one sample per point of the distance
    grid; its first sample, at distance 0, is the load voltage, and its
    last sample, at the full length, is the source voltage [Vs]. *)
Theorem X3_pi_profile_endpoints (p : PiModel.line) (o : PiModel.outputs) :
  PiModel.run p = Ok o →
  length (PiModel.V_x o) = Z.to_nat (PiModel.n_points p) ∧
  length (PiModel.x o) = Z.to_nat (PiModel.n_points p) ∧
  (∀ v, PiModel.V_x o !! 0%nat = Some v → ceq v (PiModel.V_load o)) ∧
  ((2 ≤ PiModel.n_points p)%Z →
   ∀ v, PiModel.V_x o !! Z.to_nat (PiModel.n_points p - 1) = Some v →
     ceq v (of_real (PiModel.Vs p))).
Proof.
  intros Hrun. pose proof (pi_terminal p o Hrun) as Hterm.
  pose proof (pi_run_trace p o Hrun) as (Hm & _ & _ & Hx & Hlen & Hall).
  destruct (linspace_Ok _ _ _ _ Hx) as (_ & Hlenx & _).
  split_and!; [congruence|done| |].
  - intros v Hv.
    destruct (lookup_lt_is_Some_2 (PiModel.x o) 0%nat) as [l Hl].
    { apply lookup_lt_Some in Hv. lia. }
    pose proof (linspace_first _ _ _ _ Hx Hl) as Hl0.
    destruct (Hall _ _ Hl) as (v' & Hv' & q & _ & ->).
    rewrite Hv in Hv'. injection Hv' as ->.
    destruct (PiModel.Z p) as [z1 z2], q as [q1 q2],
             (PiModel.V_load o) as [v1 v2], (PiModel.I_load o) as [i1 i2].
    unfold ceq, cmul, cadd, of_real. simpl. rewrite Hl0. split; ring.
  - intros Hn v Hv.
    pose proof (linspace_last _ _ _ _ Hx Hn) as Hl.
    destruct (Hall _ _ Hl) as (v' & Hv' & q & Hq & ->).
    rewrite Hv in Hv'. injection Hv' as ->.
    apply pi_matrix_Ok in Hm as (_ & Y_shunt & HY & Hmat).
    rewrite Hq in HY. injection HY as <-.
    rewrite Hmat in Hterm. exact Hterm.
Qed.

Lemma X3_witness :
  ∃ o, PiModel.run PiModel.script = Ok o ∧
    length (PiModel.V_x o) = Z.to_nat 100 ∧
    length (PiModel.x o) = Z.to_nat 100 ∧
    (∀ v, PiModel.V_x o !! 0%nat = Some v → ceq v (PiModel.V_load o)) ∧
    ((2 ≤ 100)%Z →
     ∀ v, PiModel.V_x o !! Z.to_nat (100 - 1) = Some v →
       ceq v (of_real (PiModel.Vs PiModel.script))).
Proof.
  destruct pi_script_total as [o Ho]. exists o. split; [exact Ho|].
  exact (X3_pi_profile_endpoints PiModel.script o Ho).
Defined.



(** ** Completion of the simulations *)

Lemma int_nonneg (q : Q) : 0 <= q → (0 ≤ int q)%Z.
Proof.
  destruct q as [n d]. unfold int, Qle. simpl. intros H.
  apply Z.quot_pos; lia.
Qed.

Lemma n_steps_nonneg (t_max dt : Q) : 0 <= t_max → 0 < dt → (0 ≤ int (t_max / dt))%Z.
Proof. intros Ht Hdt. apply int_nonneg. apply Qle_shift_div_l; lra. Qed.

(** X5. For a positive time step, a positive inductance, a horizon that
    is not negative and a resistance that is never negative, the RL
    script runs to completion: no division by zero, no index out of
    range. *)
Theorem X5_rl_completes_for_valid_parameters (c : RL.circuit) :
  0 < RL.dt c → 0 <= RL.t_max c → 0 < RL.L c →
  (∀ τ, 0 <= RL.resistência c τ) →
  ∃ r, RL.run c = Ok r.
Proof.
  intros Hdt Ht HL HR. apply rl_run_total; [lra|by apply n_steps_nonneg|lra|].
  intros τ. pose proof (rl_lado_esquerdo_pos _ _ _ Hdt HL (HR τ)). lra.
Qed.

Lemma X5_witness : ∃ r, RL.run RL.script = Ok r.
Proof.
  apply (X5_rl_completes_for_valid_parameters RL.script); [Qeval..|].
  intros τ. change (RL.resistência RL.script τ) with (RL.pegar_resistência τ).
  unfold RL.pegar_resistência. destruct (Qltb τ 0.05); Qeval.
Defined.

(** X6. For a positive time step, inductance, capacitance and load
    resistance and a horizon that is not negative, the RLC script runs to
    completion: the left-hand matrix is never singular, its determinant
    being at least 1. *)
Theorem X6_rlc_completes_for_positive_parameters (c : RLC.circuit) :
  0 < RLC.dt c → 0 <= RLC.t_max c → 0 < RLC.L c → 0 < RLC.C c →
  (∀ τ, 0 < RLC.R_load c τ) →
  (∃ r, RLC.run c = Ok r) ∧
  ∀ τ, 1 <= det (RLC.left_side (RLC.dt c) (rlc_A c (RLC.R_load c τ))).
Proof.
  intros Hdt Ht HL HC HR. split.
  - apply rlc_run_total_positive; try done. by apply n_steps_nonneg.
  - intros τ. by apply rlc_left_side_det_pos.
Qed.

Lemma X6_witness :
  (∃ r, RLC.run RLC.script = Ok r) ∧
  ∀ τ, 1 <= det (RLC.left_side (RLC.dt RLC.script)
                   (rlc_A RLC.script (RLC.R_load RLC.script τ))).
Proof.
  apply (X6_rlc_completes_for_positive_parameters RLC.script); [Qeval..|].
  intros τ. change (RLC.R_load RLC.script τ) with (RLC.load_resistance τ).
  unfold RLC.load_resistance. destruct (Qltb τ 0.005); Qeval.
Defined.

(** ** What makes a run fail *)

Lemma bind_Raise {A B : Type} (m : result A) (k : A → result B) (e : exn) :
  bind m k = Raise e → m = Raise e ∨ ∃ a, m = Ok a ∧ k a = Raise e.
Proof. destruct m as [a|e']; simpl; [eauto|]. intros [= ->]. by left. Qed.

Lemma truediv_Raise (a b : Q) (e : exn) :
  truediv a b = Raise e → e = ZeroDivisionError ∧ b == 0.
Proof.
  unfold truediv. destruct (Qeq_bool b 0) eqn:E; [|discriminate].
  intros [= <-]. split; [done|by apply Qeq_bool_eq].
Qed.

Lemma linspace_Raise (start stop : Q) (num : Z) (e : exn) :
  linspace start stop num = Raise e → e = ValueError ∧ (num < 0)%Z.
Proof. unfold linspace. destruct (Z.ltb_spec num 0); [|discriminate]. by intros [= <-]. Qed.

Lemma solve_Raise (a : mat2) (b : vec2) (e : exn) :
  solve a b = Raise e → e = LinAlgError ∧ det a == 0.
Proof.
  unfold solve. destruct (Qeq_bool (det a) 0) eqn:E; [|discriminate].
  intros [= <-]. split; [done|by apply Qeq_bool_eq].
Qed.

Lemma for_each_seq_raise {S : Type} (body : nat → S → result S) (P : nat → S → Prop)
    (Q : exn → Prop) (k a : nat) (s : S) (e : exn) :
  P a s →
  (∀ n s1 s2, (a ≤ n < a + k)%nat → P n s1 → body n s1 = Ok s2 → P (Datatypes.S n) s2) →
  (∀ n s1 e', (a ≤ n < a + k)%nat → P n s1 → body n s1 = Raise e' → Q e') →
  for_each body (seq a k) s = Raise e → Q e.
Proof.
  revert a s. induction k as [|k IH]; intros a s H0 Hstep Hraise Hrun; simpl in Hrun.
  - discriminate.
  - destruct (body a s) as [s1|e'] eqn:Hb.
    + apply (IH (Datatypes.S a) s1); [eapply Hstep; [lia|done..]| | |done].
      * intros. eapply Hstep; [lia|done..].
      * intros n s0 e0 ? ? ?. apply (Hraise n s0 e0); [lia|done..].
    + injection Hrun as <-. apply (Hraise a s e'); [lia|done..].
Qed.

Lemma rl_passo_Raise (c : RL.circuit) (R_n x u : Q) (e : exn) :
  RL.passo c R_n x u = Raise e →
  e = ZeroDivisionError ∧
  (RL.L c == 0 ∨ RL.lado_esquerdo (RL.dt c) (- R_n / RL.L c) == 0).
Proof.
  unfold RL.passo. intros H.
  apply bind_Raise in H as [H|(A & HA & H)].
  { apply truediv_Raise in H as [-> ?]. auto. }
  apply truediv_Ok in HA as [HL ->].
  apply bind_Raise in H as [H|(B & HB & H)].
  { apply truediv_Raise in H as [-> ?]. auto. }
  apply truediv_Raise in H as [-> ?]. auto.
Qed.

Lemma rl_iteration_Raise (c : RL.circuit) (t : list Q) (u : Q) (n : nat) (s : RL.vars)
    (e : exn) :
  (S n < length t)%nat →
  length (RL.i_L s) = length t → length (RL.v_R s) = length t →
  length (RL.v_L s) = length t →
  RL.iteration c t u n s = Raise e →
  e = ZeroDivisionError ∧
  (RL.L c == 0 ∨ ∃ τ, RL.lado_esquerdo (RL.dt c) (- RL.resistência c τ / RL.L c) == 0).
Proof.
  intros Hn Hli Hlr Hll H. unfold RL.iteration in H. rewrite Nat.add_1_r in H.
  destruct (lookup_lt_is_Some_2 t n) as [t_n Ht_n]; [lia|].
  destruct (lookup_lt_is_Some_2 t (S n)) as [t_n1 Ht_n1]; [lia|].
  rewrite (proj2 (getitem_Ok _ _ _) Ht_n) in H. cbn [bind] in H.
  apply bind_Raise in H as [H|(x_p & Hx_p & H)].
  { apply rl_passo_Raise in H as [-> [?|?]]; eauto. }
  rewrite setitem_lt in H by lia. cbn [bind] in H.
  rewrite (proj2 (getitem_Ok _ _ _) Ht_n1) in H. cbn [bind] in H.
  unfold getitem at 1 in H. rewrite list_lookup_insert_eq in H by lia. cbn [bind] in H.
  rewrite setitem_lt in H by lia. cbn [bind] in H.
  unfold getitem at 1 in H. rewrite list_lookup_insert_eq in H by lia. cbn [bind] in H.
  rewrite setitem_lt in H by lia. discriminate.
Qed.

Lemma rl_iteration_lengths (c : RL.circuit) (t : list Q) (u : Q) (n : nat)
    (s s' : RL.vars) :
  RL.iteration c t u n s = Ok s' →
  length (RL.i_L s') = length (RL.i_L s) ∧ length (RL.v_R s') = length (RL.v_R s) ∧
  length (RL.v_L s') = length (RL.v_L s).
Proof.
  intros Hit. unfold RL.iteration in Hit.
  inv_bind Hit as t_n Ht_n. inv_bind Hit as x_p Hx_p.
  inv_bind Hit as i_L' Hi. apply setitem_Ok in Hi as [_ ->].
  inv_bind Hit as t_n1 Ht_n1. inv_bind Hit as i_n1 Hi_n1.
  inv_bind Hit as v_R' Hr. apply setitem_Ok in Hr as [_ ->].
  inv_bind Hit as v_n1 Hv_n1.
  inv_bind Hit as v_L' Hl. apply setitem_Ok in Hl as [_ ->].
  injection Hit as <-. simpl. by rewrite !length_insert.
Qed.

Lemma rl_lado_esquerdo_zero (dt L R : Q) :
  ¬ L == 0 → RL.lado_esquerdo dt (- R / L) == 0 → dt * R == - (2 * L).
Proof.
  intros HL H.
  assert (RL.lado_esquerdo dt (- R / L) * (2 * L) == 2 * L + dt * R) as E.
  { unfold RL.lado_esquerdo. field. done. }
  rewrite H in E. lra.
Qed.

(** X7. The RL script can only fail in two ways, whatever its parameters:
    with [ValueError] when [n_steps] is negative, and with
    [ZeroDivisionError] when [dt] is 0, [L] is 0 or some resistance makes
    the left-hand coefficient 0, that is [dt R = -2L].  It never indexes
    an array out of range. *)
Theorem X7_rl_failure_causes (c : RL.circuit) (e : exn) :
  RL.run c = Raise e →
  (e = ValueError ∧ (int (RL.t_max c / RL.dt c) < 0)%Z) ∨
  (e = ZeroDivisionError ∧
   (RL.dt c == 0 ∨ RL.L c == 0 ∨
    ∃ τ, RL.dt c * RL.resistência c τ == - (2 * RL.L c))).
Proof.
  unfold RL.run. intros H.
  apply bind_Raise in H as [H|(q & Hq & H)].
  { apply truediv_Raise in H as [-> ?]. right. auto. }
  apply truediv_Ok in Hq as [Hdt ->].
  apply bind_Raise in H as [H|(t & Ht & H)].
  { apply linspace_Raise in H as [-> ?]. left. auto. }
  destruct (linspace_Ok _ _ _ _ Ht) as (Hn & Hlen & _).
  rewrite zeros_nonneg in H by done. cbn [bind] in H.
  apply bind_Raise in H as [H|(s & _ & H)]; [|discriminate].
  right.
  apply (for_each_seq_raise _
           (λ (_ : nat) (s : RL.vars),
              length (RL.i_L s) = length t ∧ length (RL.v_R s) = length t ∧
              length (RL.v_L s) = length t)
           (λ e, e = ZeroDivisionError ∧
                 (RL.L c == 0 ∨
                  ∃ τ, RL.lado_esquerdo (RL.dt c) (- RL.resistência c τ / RL.L c) == 0)))
    in H.
  - destruct H as [-> [HL|[τ Hτ]]]; split; auto.
    destruct (Qeq_dec (RL.L c) 0) as [HL|HL]; [auto|].
    right. right. exists τ. by apply rl_lado_esquerdo_zero.
  - simpl. by rewrite !length_replicate.
  - intros n s1 s2 Hr (Hli & Hlr & Hll) Hit.
    apply rl_iteration_lengths in Hit as (-> & -> & ->). done.
  - intros n s1 e' Hr (Hli & Hlr & Hll) Hit.
    eapply rl_iteration_Raise; [|done..]. simpl in Hr. lia.
Qed.

Lemma X7_witness :
  (ZeroDivisionError = ValueError ∧
   (int (RL.t_max (rl_script_with 0 1e-5) / RL.dt (rl_script_with 0 1e-5)) < 0)%Z) ∨
  (ZeroDivisionError = ZeroDivisionError ∧
   (RL.dt (rl_script_with 0 1e-5) == 0 ∨ RL.L (rl_script_with 0 1e-5) == 0 ∨
    ∃ τ, RL.dt (rl_script_with 0 1e-5) * RL.resistência (rl_script_with 0 1e-5) τ
         == - (2 * RL.L (rl_script_with 0 1e-5)))).
Proof.
  apply (X7_rl_failure_causes (rl_script_with 0 1e-5) ZeroDivisionError).
  vm_compute. reflexivity.
Defined.

Lemma rlc_iteration_lengths (c : RLC.circuit) (t : list Q) (u_vec : vec2) (n : nat)
    (s s' : RLC.vars) :
  RLC.iteration c t u_vec n s = Ok s' →
  length (RLC.i_L s') = length (RLC.i_L s) ∧ length (RLC.v_C s') = length (RLC.v_C s) ∧
  length (RLC.i_load s') = length (RLC.i_load s).
Proof.
  intros Hit. unfold RLC.iteration in Hit.
  inv_bind Hit as t_n Ht_n. inv_bind Hit as x_p Hx_p.
  inv_bind Hit as i_L' Hi. apply setitem_Ok in Hi as [_ ->].
  inv_bind Hit as v_C' Hc. apply setitem_Ok in Hc as [_ ->].
  inv_bind Hit as v_n1 Hv_n1. inv_bind Hit as t_n1 Ht_n1.
  inv_bind Hit as i_load' Hl. apply setitem_Ok in Hl as [_ ->].
  injection Hit as <-. simpl. by rewrite !length_insert.
Qed.

Lemma rlc_step_Raise (c : RLC.circuit) (R_load_n : Q) (x u_vec : vec2) (e : exn) :
  RLC.step c R_load_n x u_vec = Raise e →
  (e = ZeroDivisionError ∧ (RLC.L c == 0 ∨ RLC.C c == 0 ∨ R_load_n == 0)) ∨
  (e = LinAlgError ∧ det (RLC.left_side (RLC.dt c) (rlc_A c R_load_n)) == 0).
Proof.
  unfold RLC.step. intros H.
  apply bind_Raise in H as [H|(A & HA & H)].
  - left. unfold RLC.A_load in H.
    apply bind_Raise in H as [H|(a01 & _ & H)].
    { apply truediv_Raise in H as [-> ?]. auto. }
    apply bind_Raise in H as [H|(a10 & _ & H)].
    { apply truediv_Raise in H as [-> ?]. auto. }
    apply bind_Raise in H as [H|(a11 & _ & H)]; [|discriminate].
    apply truediv_Raise in H as [-> HRC]. split; [done|].
    apply Qmult_integral in HRC as [?|?]; auto.
  - right. apply rlc_A_load_Ok in HA as (_ & _ & _ & ->).
    by apply solve_Raise in H.
Qed.

Lemma rlc_iteration_Raise (c : RLC.circuit) (t : list Q) (u_vec : vec2) (n : nat)
    (s : RLC.vars) (e : exn) :
  (S n < length t)%nat →
  length (RLC.i_L s) = length t → length (RLC.v_C s) = length t →
  length (RLC.i_load s) = length t →
  RLC.iteration c t u_vec n s = Raise e →
  (e = ZeroDivisionError ∧
   (RLC.L c == 0 ∨ RLC.C c == 0 ∨ ∃ τ, RLC.R_load c τ == 0)) ∨
  (e = LinAlgError ∧
   ∃ τ, det (RLC.left_side (RLC.dt c) (rlc_A c (RLC.R_load c τ))) == 0).
Proof.
  intros Hn Hli Hlc Hll H. unfold RLC.iteration in H. rewrite Nat.add_1_r in H.
  destruct (lookup_lt_is_Some_2 t n) as [t_n Ht_n]; [lia|].
  destruct (lookup_lt_is_Some_2 t (S n)) as [t_n1 Ht_n1]; [lia|].
  rewrite (proj2 (getitem_Ok _ _ _) Ht_n) in H. cbn [bind] in H.
  apply bind_Raise in H as [H|(x_p & Hx_p & H)].
  { apply rlc_step_Raise in H as [[-> [?|[?|?]]]|[-> ?]]; eauto 6. }
  rewrite !setitem_lt in H by lia. cbn [bind] in H.
  unfold getitem at 1 in H. rewrite list_lookup_insert_eq in H by lia. cbn [bind] in H.
  rewrite (proj2 (getitem_Ok _ _ _) Ht_n1) in H. cbn [bind] in H.
  rewrite setitem_lt in H by lia. discriminate.
Qed.

(** X8. The RLC script can only fail in three ways, whatever its
    parameters: with [ValueError] when [n_steps] is negative, with
    [ZeroDivisionError] when [dt], [L], [C] or some load resistance is 0,
    and with [LinAlgError] when the left-hand matrix is singular for some
    load resistance.  It never indexes an array out of range. *)
Theorem X8_rlc_failure_causes (c : RLC.circuit) (e : exn) :
  RLC.run c = Raise e →
  (e = ValueError ∧ (int (RLC.t_max c / RLC.dt c) < 0)%Z) ∨
  (e = ZeroDivisionError ∧
   (RLC.dt c == 0 ∨ RLC.L c == 0 ∨ RLC.C c == 0 ∨ ∃ τ, RLC.R_load c τ == 0)) ∨
  (e = LinAlgError ∧
   ∃ τ, det (RLC.left_side (RLC.dt c) (rlc_A c (RLC.R_load c τ))) == 0).
Proof.
  unfold RLC.run. intros H.
  apply bind_Raise in H as [H|(q & Hq & H)].
  { apply truediv_Raise in H as [-> ?]. right. left. auto. }
  apply truediv_Ok in Hq as [Hdt ->].
  apply bind_Raise in H as [H|(t & Ht & H)].
  { apply linspace_Raise in H as [-> ?]. left. auto. }
  destruct (linspace_Ok _ _ _ _ Ht) as (Hn & Hlen & _).
  rewrite zeros_nonneg in H by done. cbn [bind] in H.
  apply bind_Raise in H as [H|(u0 & Hu0 & H)].
  { apply truediv_Raise in H as [-> ?]. right. left. auto. }
  apply bind_Raise in H as [H|(s & _ & H)]; [|discriminate].
  right.
  apply (for_each_seq_raise _
           (λ (_ : nat) (s : RLC.vars),
              length (RLC.i_L s) = length t ∧ length (RLC.v_C s) = length t ∧
              length (RLC.i_load s) = length t)
           (λ e, (e = ZeroDivisionError ∧
                  (RLC.L c == 0 ∨ RLC.C c == 0 ∨ ∃ τ, RLC.R_load c τ == 0)) ∨
                 (e = LinAlgError ∧
                  ∃ τ, det (RLC.left_side (RLC.dt c) (rlc_A c (RLC.R_load c τ))) == 0)))
    in H.
  - destruct H as [[-> Hc]|[-> Hc]]; [left|right]; split; auto.
  - simpl. by rewrite length_fmap, !length_replicate.
  - intros n s1 s2 Hr (Hli & Hlc & Hll) Hit.
    apply rlc_iteration_lengths in Hit as (-> & -> & ->). done.
  - intros n s1 e' Hr (Hli & Hlc & Hll) Hit.
    eapply rlc_iteration_Raise; [|done..]. simpl in Hr. lia.
Qed.

Lemma X8_witness :
  (ZeroDivisionError = ValueError ∧
   (int (RLC.t_max (rlc_script_with 0.01 0 1e-6) / RLC.dt (rlc_script_with 0.01 0 1e-6))
    < 0)%Z) ∨
  (ZeroDivisionError = ZeroDivisionError ∧
   (RLC.dt (rlc_script_with 0.01 0 1e-6) == 0 ∨ RLC.L (rlc_script_with 0.01 0 1e-6) == 0 ∨
    RLC.C (rlc_script_with 0.01 0 1e-6) == 0 ∨
    ∃ τ, RLC.R_load (rlc_script_with 0.01 0 1e-6) τ == 0)) ∨
  (ZeroDivisionError = LinAlgError ∧
   ∃ τ, det (RLC.left_side (RLC.dt (rlc_script_with 0.01 0 1e-6))
               (rlc_A (rlc_script_with 0.01 0 1e-6)
                  (RLC.R_load (rlc_script_with 0.01 0 1e-6) τ))) == 0).
Proof.
  apply (X8_rlc_failure_causes (rlc_script_with 0.01 0 1e-6) ZeroDivisionError).
  vm_compute. reflexivity.
Defined.

(** ** Shape of the series *)

(** X9. In a finished run of either script the time grid and every series
    have the same length [n_steps = int(t_max / dt)], and with at least
    two samples the last instant of the grid is exactly [t_max]. *)
Theorem X9_series_aligned_with_grid :
  (∀ (c : RL.circuit) (r : RL.series), RL.run c = Ok r →
     length (RL.t r) = Z.to_nat (int (RL.t_max c / RL.dt c)) ∧
     length (RL.i_L (RL.out r)) = length (RL.t r) ∧
     length (RL.v_R (RL.out r)) = length (RL.t r) ∧
     length (RL.v_L (RL.out r)) = length (RL.t r) ∧
     ((2 ≤ length (RL.t r))%nat →
      RL.t r !! (length (RL.t r) - 1)%nat = Some (RL.t_max c))) ∧
  (∀ (c : RLC.circuit) (r : RLC.series), RLC.run c = Ok r →
     length (RLC.t r) = Z.to_nat (int (RLC.t_max c / RLC.dt c)) ∧
     length (RLC.i_L (RLC.out r)) = length (RLC.t r) ∧
     length (RLC.v_C (RLC.out r)) = length (RLC.t r) ∧
     length (RLC.i_load (RLC.out r)) = length (RLC.t r) ∧
     ((2 ≤ length (RLC.t r))%nat →
      RLC.t r !! (length (RLC.t r) - 1)%nat = Some (RLC.t_max c))).
Proof.
  assert (∀ stop num t, linspace 0 stop num = Ok t →
            length t = Z.to_nat num ∧
            ((2 ≤ length t)%nat → t !! (length t - 1)%nat = Some stop)) as Hgrid.
  { intros stop num t Ht. destruct (linspace_Ok _ _ _ _ Ht) as (Hnum & Hlen & _).
    split; [done|]. intros H2.
    replace (length t - 1)%nat with (Z.to_nat (num - 1)) by lia.
    apply (linspace_last _ _ _ _ Ht). lia. }
  split.
  - intros c r Hrun. apply rl_run_trace in Hrun as (_ & Ht & ? & ? & ? & _).
    destruct (Hgrid _ _ _ Ht). done.
  - intros c r Hrun. apply rlc_run_trace in Hrun as (_ & _ & Ht & ? & ? & ? & _).
    destruct (Hgrid _ _ _ Ht). done.
Qed.

Lemma X9_witness :
  (∃ r, RL.run RL.script = Ok r ∧
     length (RL.t r) = Z.to_nat 10000 ∧
     length (RL.i_L (RL.out r)) = length (RL.t r) ∧
     length (RL.v_R (RL.out r)) = length (RL.t r) ∧
     length (RL.v_L (RL.out r)) = length (RL.t r) ∧
     ((2 ≤ length (RL.t r))%nat →
      RL.t r !! (length (RL.t r) - 1)%nat = Some 0.1)) ∧
  (∃ r, RLC.run RLC.script = Ok r ∧
     length (RLC.t r) = Z.to_nat 10000 ∧
     length (RLC.i_L (RLC.out r)) = length (RLC.t r) ∧
     length (RLC.v_C (RLC.out r)) = length (RLC.t r) ∧
     length (RLC.i_load (RLC.out r)) = length (RLC.t r) ∧
     ((2 ≤ length (RLC.t r))%nat →
      RLC.t r !! (length (RLC.t r) - 1)%nat = Some 0.01)).
Proof.
  split.
  - destruct rl_script_total as [r Hr]. exists r. split; [exact Hr|].
    pose proof (proj1 X9_series_aligned_with_grid RL.script r Hr) as H.
    rewrite rl_script_n_steps in H. exact H.
  - destruct rlc_script_total as [r Hr]. exists r. split; [exact Hr|].
    pose proof (proj2 X9_series_aligned_with_grid RLC.script r Hr) as H.
    rewrite rlc_script_n_steps in H. exact H.
Defined.

(** ** The RL step as a map *)

(** The state stored at [n + 1], in closed form. *)
Lemma rl_run_step (c : RL.circuit) (r : RL.series) (n : nat) (t_n a b : Q) :
  RL.run c = Ok r →
  RL.t r !! n = Some t_n →
  RL.i_L (RL.out r) !! n = Some a → RL.i_L (RL.out r) !! S n = Some b →
  ¬ RL.L c == 0 ∧
  ¬ RL.lado_esquerdo (RL.dt c) (- RL.resistência c t_n / RL.L c) == 0 ∧
  b == RL.lado_direito (RL.dt c) (- RL.resistência c t_n / RL.L c) (1 / RL.L c) a
         (RL.V_fonte c)
       / RL.lado_esquerdo (RL.dt c) (- RL.resistência c t_n / RL.L c).
Proof.
  intros Hrun Ht Ha Hb.
  apply rl_run_trace in Hrun as (_ & _ & Hli & _ & _ & _ & Hsteps).
  destruct (Hsteps n)
    as (t' & t1' & x' & p' & Ht' & _ & (a' & Ha' & Hax) & Hpasso & Hp' & _).
  { apply lookup_lt_Some in Hb. lia. }
  rewrite Ht in Ht'. injection Ht' as <-.
  rewrite Ha in Ha'. injection Ha' as <-.
  rewrite Hb in Hp'. injection Hp' as <-.
  apply rl_passo_Ok in Hpasso as (HL & Hle & ->). split_and!; [done..|].
  unfold RL.lado_direito. by rewrite Hax.
Qed.

(** With [h = dt R / (2 L)] the step maps the distance to the steady
    state [V / R] to [(1 - h) / (1 + h)] times itself. *)
Lemma rl_step_contraction (dt L R V a b : Q) :
  0 < dt → 0 < L → 0 < R →
  b == RL.lado_direito dt (- R / L) (1 / L) a V / RL.lado_esquerdo dt (- R / L) →
  b - V / R
  == (1 - dt * R / (2 * L)) / (1 + dt * R / (2 * L)) * (a - V / R).
Proof.
  intros Hdt HL HR ->. unfold RL.lado_direito, RL.lado_esquerdo.
  assert (0 < 2 * L + dt * R) by nra.
  field. split_and!; lra.
Qed.

Lemma contraction_factor_bounds (h : Q) :
  0 < h → -1 < (1 - h) / (1 + h) ∧ (1 - h) / (1 + h) < 1.
Proof.
  intros Hh. split.
  - apply Qlt_shift_div_l; lra.
  - apply Qlt_shift_div_r; lra.
Qed.

Lemma rl_step_ratio_pos (dt L R : Q) : 0 < dt → 0 < L → 0 < R → 0 < dt * R / (2 * L).
Proof. intros. apply Qlt_shift_div_l; nra. Qed.

(** X10. For every positive time step, each RL step brings the current
    strictly closer to the steady-state current [V / R] of the resistance
    it read: the distance is multiplied by [(1 - h) / (1 + h)], with
    [h = dt R / (2 L)], a factor strictly between -1 and 1. *)
Theorem X10_rl_step_contracts_toward_steady_state (c : RL.circuit) (r : RL.series)
    (n : nat) (t_n a b : Q) :
  RL.run c = Ok r → 0 < RL.dt c → 0 < RL.L c →
  RL.t r !! n = Some t_n → 0 < RL.resistência c t_n →
  RL.i_L (RL.out r) !! n = Some a → RL.i_L (RL.out r) !! S n = Some b →
  b - RL.V_fonte c / RL.resistência c t_n
  == (1 - RL.dt c * RL.resistência c t_n / (2 * RL.L c))
     / (1 + RL.dt c * RL.resistência c t_n / (2 * RL.L c))
     * (a - RL.V_fonte c / RL.resistência c t_n) ∧
  -1 < (1 - RL.dt c * RL.resistência c t_n / (2 * RL.L c))
       / (1 + RL.dt c * RL.resistência c t_n / (2 * RL.L c)) ∧
  (1 - RL.dt c * RL.resistência c t_n / (2 * RL.L c))
  / (1 + RL.dt c * RL.resistência c t_n / (2 * RL.L c)) < 1.
Proof.
  intros Hrun Hdt HL Ht HR Ha Hb.
  destruct (rl_run_step c r n t_n a b Hrun Ht Ha Hb) as (_ & _ & Hstep).
  split; [by apply rl_step_contraction|].
  apply contraction_factor_bounds. by apply rl_step_ratio_pos.
Qed.

Lemma X10_witness :
  ∃ r t_n a b,
    RL.run rl_coarse = Ok r ∧
    RL.t r !! 4%nat = Some t_n ∧
    RL.i_L (RL.out r) !! 4%nat = Some a ∧ RL.i_L (RL.out r) !! 5%nat = Some b ∧
    b - RL.V_fonte rl_coarse / RL.resistência rl_coarse t_n
    == (1 - RL.dt rl_coarse * RL.resistência rl_coarse t_n / (2 * RL.L rl_coarse))
       / (1 + RL.dt rl_coarse * RL.resistência rl_coarse t_n / (2 * RL.L rl_coarse))
       * (a - RL.V_fonte rl_coarse / RL.resistência rl_coarse t_n).
Proof.
  eexists _, _, _, _. split; [vm_compute; reflexivity|].
  split_and!; [vm_compute; reflexivity..|].
  eapply (X10_rl_step_contracts_toward_steady_state rl_coarse _ 4);
    [vm_compute; reflexivity|Qeval|Qeval|vm_compute; reflexivity|Qeval
    |vm_compute; reflexivity|vm_compute; reflexivity].
Defined.

(** A convex combination of two numbers of an interval stays in it. *)
Lemma convex_step (ρ a s b lo hi : Q) :
  0 <= ρ → ρ <= 1 → lo <= a → a <= hi → lo <= s → s <= hi →
  b - s == ρ * (a - s) → lo <= b ∧ b <= hi.
Proof.
  intros Hρ0 Hρ1 Ha0 Ha1 Hs0 Hs1 Hb.
  assert (0 <= ρ * (a - lo)) by (apply Qmult_le_0_compat; lra).
  assert (0 <= (1 - ρ) * (s - lo)) by (apply Qmult_le_0_compat; lra).
  assert (0 <= ρ * (hi - a)) by (apply Qmult_le_0_compat; lra).
  assert (0 <= (1 - ρ) * (hi - s)) by (apply Qmult_le_0_compat; lra).
  split; lra.
Qed.

Lemma contraction_factor_nonneg (h : Q) :
  0 < h → h <= 1 → 0 <= (1 - h) / (1 + h) ∧ (1 - h) / (1 + h) <= 1.
Proof.
  intros Hh H1. split.
  - apply Qle_shift_div_l; lra.
  - apply Qle_shift_div_r; lra.
Qed.

Lemma rl_step_ratio_le (dt L R : Q) :
  0 < L → dt * R <= 2 * L → dt * R / (2 * L) <= 1.
Proof. intros. apply Qle_shift_div_r; lra. Qed.

Lemma steady_state_bounds (V R R_min : Q) :
  0 <= V → 0 < R_min → R_min <= R → 0 <= V / R ∧ V / R <= V / R_min.
Proof.
  intros HV Hmin HR. split.
  - apply Qle_shift_div_l; lra.
  - apply Qle_shift_div_l; [lra|].
    assert (V / R * R_min == V * (R_min / R)) as E by (field; lra).
    assert (R_min / R <= 1) by (apply Qle_shift_div_r; lra).
    assert (0 <= R_min / R) by (apply Qle_shift_div_l; lra).
    rewrite E. nra.
Qed.

(** Bounds of the RL current for a bounded resistance. *)
Lemma rl_current_bounds (c : RL.circuit) (r : RL.series) (R_min : Q) :
  RL.run c = Ok r →
  0 < RL.dt c → 0 < RL.L c → 0 <= RL.V_fonte c → 0 < R_min →
  (∀ τ, R_min <= RL.resistência c τ ∧ RL.dt c * RL.resistência c τ <= 2 * RL.L c) →
  ∀ n a, RL.i_L (RL.out r) !! n = Some a → 0 <= a ∧ a <= RL.V_fonte c / R_min.
Proof.
  intros Hrun Hdt HL HV Hmin HR.
  pose proof (rl_run_trace _ _ Hrun) as (_ & _ & Hli & _ & _ & H0 & _).
  induction n as [|n IH]; intros b Hb.
  - destruct H0 as (H0 & _); [apply lookup_lt_Some in Hb; lia|].
    rewrite Hb in H0. injection H0 as ->.
    split; [lra|]. apply Qle_shift_div_l; lra.
  - destruct (lookup_lt_is_Some_2 (RL.i_L (RL.out r)) n) as [a Ha].
    { apply lookup_lt_Some in Hb. lia. }
    destruct (lookup_lt_is_Some_2 (RL.t r) n) as [t_n Ht].
    { apply lookup_lt_Some in Hb. lia. }
    destruct (HR t_n) as [HRmin HRmax]. destruct (IH a Ha) as [Ha0 Ha1].
    assert (0 < RL.resistência c t_n) as HRpos by lra.
    destruct (rl_run_step c r n t_n a b Hrun Ht Ha Hb) as (_ & _ & Hstep).
    apply (rl_step_contraction _ _ _ _ _ _ Hdt HL HRpos) in Hstep.
    destruct (steady_state_bounds (RL.V_fonte c) _ R_min HV Hmin HRmin).
    destruct (contraction_factor_nonneg (RL.dt c * RL.resistência c t_n / (2 * RL.L c))).
    { by apply rl_step_ratio_pos. }
    { by apply rl_step_ratio_le. }
    eapply convex_step; [..|exact Hstep]; done.
Qed.

(** X11. With a source voltage that is not negative, a resistance that
    stays at or above [R_min > 0] and a time step of at most [2 L / R],
    the RL current stays between 0 and [V / R_min] at every index. *)
Theorem X11_rl_current_bounded (c : RL.circuit) (r : RL.series) (R_min : Q) :
  RL.run c = Ok r →
  0 < RL.dt c → 0 < RL.L c → 0 <= RL.V_fonte c → 0 < R_min →
  (∀ τ, R_min <= RL.resistência c τ ∧ RL.dt c * RL.resistência c τ <= 2 * RL.L c) →
  ∀ n a, RL.i_L (RL.out r) !! n = Some a → 0 <= a ∧ a <= RL.V_fonte c / R_min.
Proof. apply rl_current_bounds. Qed.

Lemma X11_witness :
  ∃ r, RL.run RL.script = Ok r ∧
    ∀ n a, RL.i_L (RL.out r) !! n = Some a → 0 <= a ∧ a <= RL.V_fonte RL.script / 1.
Proof.
  destruct rl_script_total as [r Hr]. exists r. split; [exact Hr|].
  apply (X11_rl_current_bounded RL.script r 1 Hr); [Qeval..|].
  intros τ. change (RL.resistência RL.script τ) with (RL.pegar_resistência τ).
  unfold RL.pegar_resistência. destruct (Qltb τ 0.05); split; Qeval.
Defined.

(** X12. With a constant resistance [R > 0], a source voltage that is not
    negative and a time step of at most [2 L / R], the RL current never
    decreases and never exceeds the steady-state current [V / R]. *)
Theorem X12_rl_constant_resistance_monotone (c : RL.circuit) (r : RL.series) (R_0 : Q) :
  RL.run c = Ok r →
  0 < RL.dt c → 0 < RL.L c → 0 <= RL.V_fonte c → 0 < R_0 →
  RL.dt c * R_0 <= 2 * RL.L c →
  (∀ τ, RL.resistência c τ == R_0) →
  ∀ n a b, RL.i_L (RL.out r) !! n = Some a → RL.i_L (RL.out r) !! S n = Some b →
    a <= b ∧ b <= RL.V_fonte c / R_0.
Proof.
  intros Hrun Hdt HL HV HR0 Hsmall Hconst n a b Ha Hb.
  assert (∀ τ, R_0 <= RL.resistência c τ ∧ RL.dt c * RL.resistência c τ <= 2 * RL.L c)
    as Hbounds.
  { intros τ. rewrite (Hconst τ). split; lra. }
  destruct (rl_current_bounds c r R_0 Hrun Hdt HL HV HR0 Hbounds n a Ha) as [Ha0 Ha1].
  destruct (rl_current_bounds c r R_0 Hrun Hdt HL HV HR0 Hbounds (S n) b Hb) as [_ Hb1].
  split; [|done].
  destruct (lookup_lt_is_Some_2 (RL.t r) n) as [t_n Ht].
  { pose proof (rl_run_trace _ _ Hrun) as (_ & _ & Hli & _).
    apply lookup_lt_Some in Hb. lia. }
  destruct (rl_run_step c r n t_n a b Hrun Ht Ha Hb) as (_ & _ & Hstep).
  assert (0 < RL.resistência c t_n) as HRpos by (rewrite (Hconst t_n); done).
  apply (rl_step_contraction _ _ _ _ _ _ Hdt HL HRpos) in Hstep.
  destruct (contraction_factor_nonneg (RL.dt c * RL.resistência c t_n / (2 * RL.L c)))
    as [Hρ0 Hρ1].
  { by apply rl_step_ratio_pos. }
  { apply rl_step_ratio_le; [done|]. by rewrite (Hconst t_n). }
  rewrite (Hconst t_n) in Hstep, Hρ0, Hρ1.
  set (ρ := (1 - RL.dt c * R_0 / (2 * RL.L c)) / (1 + RL.dt c * R_0 / (2 * RL.L c))) in *.
  clearbody ρ. set (s := RL.V_fonte c / R_0) in *. clearbody s.
  assert (0 <= (1 - ρ) * (s - a)) by (apply Qmult_le_0_compat; lra).
  lra.
Qed.

Lemma X12_witness :
  ∃ r, RL.run rl_constant = Ok r ∧
    ∀ n a b, RL.i_L (RL.out r) !! n = Some a → RL.i_L (RL.out r) !! S n = Some b →
      a <= b ∧ b <= RL.V_fonte rl_constant / 10.
Proof.
  destruct rl_constant_total as [r Hr]. exists r. split; [exact Hr|].
  apply (X12_rl_constant_resistance_monotone rl_constant r 10 Hr); [Qeval..|].
  intros τ. reflexivity.
Defined.

(** X13. Stability is not freedom from overshoot: when the time step
    exceeds [2 L / R] for the resistance read at the first instant, the
    first computed sample of the RL current is already above the
    steady-state current [V / R]. *)
Theorem X13_rl_large_step_overshoots (c : RL.circuit) (r : RL.series) (t_0 b : Q) :
  RL.run c = Ok r →
  0 < RL.dt c → 0 < RL.L c → 0 < RL.V_fonte c →
  RL.t r !! 0%nat = Some t_0 → 0 < RL.resistência c t_0 →
  2 * RL.L c < RL.dt c * RL.resistência c t_0 →
  RL.i_L (RL.out r) !! 1%nat = Some b →
  RL.V_fonte c / RL.resistência c t_0 < b.
Proof.
  intros Hrun Hdt HL HV Ht HR Hlarge Hb.
  pose proof (rl_run_trace _ _ Hrun) as (_ & _ & Hli & _ & _ & H0 & _).
  destruct H0 as (Ha & _); [apply lookup_lt_Some in Hb; lia|].
  destruct (rl_run_step c r 0 t_0 0 b Hrun Ht Ha Hb) as (_ & _ & Hstep).
  apply (rl_step_contraction _ _ _ _ _ _ Hdt HL HR) in Hstep.
  set (h := RL.dt c * RL.resistência c t_0 / (2 * RL.L c)) in *.
  assert (1 < h) as Hh by (apply Qlt_shift_div_l; lra).
  assert (0 < RL.V_fonte c / RL.resistência c t_0) as Hs by (apply Qlt_shift_div_l; lra).
  assert ((1 - h) / (1 + h) < 0) as Hρ by (apply Qlt_shift_div_r; lra).
  clearbody h. set (s := RL.V_fonte c / RL.resistência c t_0) in *. clearbody s.
  set (ρ := (1 - h) / (1 + h)) in *. clearbody ρ. nra.
Qed.

Lemma X13_witness :
  ∃ r t_0 b,
    RL.run (rl_script_with 0.1 0.025) = Ok r ∧
    RL.t r !! 0%nat = Some t_0 ∧ RL.i_L (RL.out r) !! 1%nat = Some b ∧
    RL.V_fonte (rl_script_with 0.1 0.025) / RL.resistência (rl_script_with 0.1 0.025) t_0
    < b.
Proof.
  eexists _, _, _. split; [vm_compute; reflexivity|].
  split_and!; [vm_compute; reflexivity..|].
  eapply (X13_rl_large_step_overshoots (rl_script_with 0.1 0.025));
    [vm_compute; reflexivity|Qeval|Qeval|Qeval|vm_compute; reflexivity|Qeval|Qeval
    |vm_compute; reflexivity].
Defined.

(** ** Energy *)

(** The RL step, cleared of its divisions:
    [L (b - a) = dt V - (dt / 2) R (a + b)]. *)
Lemma rl_run_step_linear (c : RL.circuit) (r : RL.series) (n : nat) (t_n a b : Q) :
  RL.run c = Ok r →
  RL.t r !! n = Some t_n →
  RL.i_L (RL.out r) !! n = Some a → RL.i_L (RL.out r) !! S n = Some b →
  RL.L c * (b - a)
  == RL.dt c * RL.V_fonte c - RL.dt c / 2 * RL.resistência c t_n * (a + b).
Proof.
  intros Hrun Ht Ha Hb.
  destruct (rl_run_step c r n t_n a b Hrun Ht Ha Hb) as (HL & _ & _).
  pose proof (rl_run_trapezoid c r n t_n a b Hrun Ht Ha Hb) as Htrap.
  unfold rl_trapezoid in Htrap.
  set (R_n := RL.resistência c t_n) in *.
  assert (RL.L c * (b - a) - (RL.dt c * RL.V_fonte c - RL.dt c / 2 * R_n * (a + b))
          == RL.L c * (RL.lado_esquerdo (RL.dt c) (- R_n / RL.L c) * b
                       - RL.lado_direito (RL.dt c) (- R_n / RL.L c) (1 / RL.L c) a
                           (RL.V_fonte c))) as E.
  { unfold RL.lado_esquerdo, RL.lado_direito. field. done. }
  rewrite Htrap in E.
  assert (RL.L c * (b - a) - (RL.dt c * RL.V_fonte c - RL.dt c / 2 * R_n * (a + b)) == 0)
    as E0 by (rewrite E; ring).
  lra.
Qed.

(** X14. Every RL step balances energy exactly: the energy stored in the
    inductor changes by [dt] times the power the source delivers minus
    the power the resistor dissipates, both taken at the mean of the two
    currents: [L/2 (b² - a²) = dt (V m - R m²)] with [m = (a + b) / 2]. *)
Theorem X14_rl_energy_balance (c : RL.circuit) (r : RL.series) (n : nat) (t_n a b : Q) :
  RL.run c = Ok r →
  RL.t r !! n = Some t_n →
  RL.i_L (RL.out r) !! n = Some a → RL.i_L (RL.out r) !! S n = Some b →
  RL.L c / 2 * (b * b - a * a)
  == RL.dt c * (RL.V_fonte c * ((a + b) / 2)
                - RL.resistência c t_n * ((a + b) / 2) * ((a + b) / 2)).
Proof.
  intros Hrun Ht Ha Hb.
  pose proof (rl_run_step_linear c r n t_n a b Hrun Ht Ha Hb) as E.
  set (R_n := RL.resistência c t_n) in *. clearbody R_n.
  assert (RL.L c / 2 * (b * b - a * a) == (a + b) / 2 * (RL.L c * (b - a))) as ->
    by field.
  rewrite E. field.
Qed.

Lemma X14_witness :
  ∃ r t_n a b,
    RL.run rl_coarse = Ok r ∧
    RL.t r !! 4%nat = Some t_n ∧
    RL.i_L (RL.out r) !! 4%nat = Some a ∧ RL.i_L (RL.out r) !! 5%nat = Some b ∧
    RL.L rl_coarse / 2 * (b * b - a * a)
    == RL.dt rl_coarse * (RL.V_fonte rl_coarse * ((a + b) / 2)
                          - RL.resistência rl_coarse t_n * ((a + b) / 2) * ((a + b) / 2)).
Proof.
  eexists _, _, _, _. split; [vm_compute; reflexivity|].
  split_and!; [vm_compute; reflexivity..|].
  eapply (X14_rl_energy_balance rl_coarse _ 4); vm_compute; reflexivity.
Defined.

(** The RLC step, cleared of its divisions by [L] and [C]. *)
Lemma rlc_run_step_linear (c : RLC.circuit) (r : RLC.series) (n : nat)
    (t_n i v i' v' : Q) :
  RLC.run c = Ok r →
  RLC.t r !! n = Some t_n →
  RLC.i_L (RLC.out r) !! n = Some i → RLC.v_C (RLC.out r) !! n = Some v →
  RLC.i_L (RLC.out r) !! S n = Some i' → RLC.v_C (RLC.out r) !! S n = Some v' →
  ¬ RLC.R_load c t_n == 0 ∧
  RLC.L c * (i' - i) == RLC.dt c * RLC.V_source c - RLC.dt c / 2 * (v + v') ∧
  RLC.C c * (v' - v)
  == RLC.dt c / 2 * (i + i') - RLC.dt c / 2 * (v + v') / RLC.R_load c t_n.
Proof.
  intros Hrun Ht Hi Hv Hi' Hv'.
  pose proof (rlc_run_trapezoid c r n t_n (i, v) (i', v') Hrun Ht Hi Hv Hi' Hv')
    as [E1 E2].
  pose proof (rlc_run_trace _ _ Hrun) as (_ & _ & _ & Hli & _ & _ & _ & Hsteps).
  destruct (Hsteps n) as (t' & t1' & x_n & x_p & Ht' & _ & _ & Hstep & _).
  { apply lookup_lt_Some in Hi'. lia. }
  rewrite Ht in Ht'. injection Ht' as <-.
  unfold RLC.step in Hstep. inv_bind Hstep as A HA.
  apply rlc_A_load_Ok in HA as (HL & HC & HRC & _).
  assert (¬ RLC.R_load c t_n == 0) as HR.
  { intros HR. apply HRC. rewrite HR. ring. }
  set (R_n := RLC.R_load c t_n) in *. clearbody R_n.
  unfold RLC.right_side_vector, RLC.right_side_matrix, RLC.left_side, rlc_A,
    matvec, vec_add, vec_scale, mat_add, mat_sub, mat_scale, eye2 in E1, E2.
  simpl in E1, E2.
  split; [done|]. split.
  - match type of E1 with ?l == ?r =>
      assert (RLC.L c * (i' - i)
              - (RLC.dt c * RLC.V_source c - RLC.dt c / 2 * (v + v'))
              == RLC.L c * (l - r)) as E by (field; done) end.
    rewrite E1 in E.
    match type of E with ?l == _ => assert (l == 0) as E0 by (rewrite E; ring) end.
    lra.
  - match type of E2 with ?l == ?r =>
      assert (RLC.C c * (v' - v)
              - (RLC.dt c / 2 * (i + i') - RLC.dt c / 2 * (v + v') / R_n)
              == RLC.C c * (l - r)) as E by (field; done) end.
    rewrite E2 in E.
    match type of E with ?l == _ => assert (l == 0) as E0 by (rewrite E; ring) end.
    lra.
Qed.

(** X15. Every RLC step balances energy exactly: the energy stored in
    the inductor and the capacitor changes by [dt] times the power the
    source delivers minus the power the load dissipates, taken at the
    means of the two currents and of the two voltages. *)
Theorem X15_rlc_energy_balance (c : RLC.circuit) (r : RLC.series) (n : nat)
    (t_n i v i' v' : Q) :
  RLC.run c = Ok r →
  RLC.t r !! n = Some t_n →
  RLC.i_L (RLC.out r) !! n = Some i → RLC.v_C (RLC.out r) !! n = Some v →
  RLC.i_L (RLC.out r) !! S n = Some i' → RLC.v_C (RLC.out r) !! S n = Some v' →
  RLC.L c / 2 * (i' * i' - i * i) + RLC.C c / 2 * (v' * v' - v * v)
  == RLC.dt c * (RLC.V_source c * ((i + i') / 2)
                 - (v + v') / 2 * ((v + v') / 2) / RLC.R_load c t_n).
Proof.
  intros Hrun Ht Hi Hv Hi' Hv'.
  destruct (rlc_run_step_linear c r n t_n i v i' v' Hrun Ht Hi Hv Hi' Hv')
    as (HR & E1 & E2).
  set (R_n := RLC.R_load c t_n) in *. clearbody R_n.
  assert (RLC.L c / 2 * (i' * i' - i * i) + RLC.C c / 2 * (v' * v' - v * v)
          == (i + i') / 2 * (RLC.L c * (i' - i)) + (v + v') / 2 * (RLC.C c * (v' - v)))
    as -> by field.
  rewrite E1, E2. field. done.
Qed.

Lemma X15_witness :
  ∃ r t_n i v i' v',
    RLC.run rlc_coarse = Ok r ∧
    RLC.t r !! 1%nat = Some t_n ∧
    RLC.i_L (RLC.out r) !! 1%nat = Some i ∧ RLC.v_C (RLC.out r) !! 1%nat = Some v ∧
    RLC.i_L (RLC.out r) !! 2%nat = Some i' ∧ RLC.v_C (RLC.out r) !! 2%nat = Some v' ∧
    RLC.L rlc_coarse / 2 * (i' * i' - i * i) + RLC.C rlc_coarse / 2 * (v' * v' - v * v)
    == RLC.dt rlc_coarse * (RLC.V_source rlc_coarse * ((i + i') / 2)
                            - (v + v') / 2 * ((v + v') / 2) / RLC.R_load rlc_coarse t_n).
Proof.
  eexists _, _, _, _, _, _. split; [vm_compute; reflexivity|].
  split_and!; [vm_compute; reflexivity..|].
  eapply (X15_rlc_energy_balance rlc_coarse _ 1); vm_compute; reflexivity.
Defined.

(** X16. For a positive time step and a positive load resistance, no RLC
    step moves the state away from the steady state [(V / R_load, V)] of
    the load resistance it read: the energy of the deviation,
    [L/2 (i - V/R)² + C/2 (v - V)²], never increases. *)
Theorem X16_rlc_step_never_leaves_steady_state (c : RLC.circuit) (r : RLC.series)
    (n : nat) (t_n i v i' v' : Q) :
  RLC.run c = Ok r → 0 < RLC.dt c →
  RLC.t r !! n = Some t_n → 0 < RLC.R_load c t_n →
  RLC.i_L (RLC.out r) !! n = Some i → RLC.v_C (RLC.out r) !! n = Some v →
  RLC.i_L (RLC.out r) !! S n = Some i' → RLC.v_C (RLC.out r) !! S n = Some v' →
  RLC.L c / 2 * ((i' - RLC.V_source c / RLC.R_load c t_n)
                 * (i' - RLC.V_source c / RLC.R_load c t_n))
  + RLC.C c / 2 * ((v' - RLC.V_source c) * (v' - RLC.V_source c))
  <= RLC.L c / 2 * ((i - RLC.V_source c / RLC.R_load c t_n)
                    * (i - RLC.V_source c / RLC.R_load c t_n))
     + RLC.C c / 2 * ((v - RLC.V_source c) * (v - RLC.V_source c)).
Proof.
  intros Hrun Hdt Ht HRpos Hi Hv Hi' Hv'.
  destruct (rlc_run_step_linear c r n t_n i v i' v' Hrun Ht Hi Hv Hi' Hv')
    as (HR & E1 & E2).
  set (R_n := RLC.R_load c t_n) in *. clearbody R_n.
  set (V := RLC.V_source c) in *. clearbody V.
  set (w := v + v' - 2 * V).
  assert (RLC.L c / 2 * ((i' - V / R_n) * (i' - V / R_n))
          + RLC.C c / 2 * ((v' - V) * (v' - V))
          - (RLC.L c / 2 * ((i - V / R_n) * (i - V / R_n))
             + RLC.C c / 2 * ((v - V) * (v - V)))
          == (i + i' - 2 * (V / R_n)) / 2 * (RLC.L c * (i' - i))
             + w / 2 * (RLC.C c * (v' - v))) as E by (unfold w; field; done).
  rewrite E1, E2 in E.
  assert ((i + i' - 2 * (V / R_n)) / 2 * (RLC.dt c * V - RLC.dt c / 2 * (v + v'))
          + w / 2 * (RLC.dt c / 2 * (i + i') - RLC.dt c / 2 * (v + v') / R_n)
          == - (RLC.dt c / 4 * (w * w) / R_n)) as E' by (unfold w; field; done).
  rewrite E' in E. clear E'. clearbody w.
  assert (0 <= w * w) as Hsq by nra.
  assert (0 <= RLC.dt c / 4 * (w * w) / R_n).
  { apply Qle_shift_div_l; [done|]. rewrite Qmult_0_l.
    apply Qmult_le_0_compat; [|done]. apply Qle_shift_div_l; lra. }
  lra.
Qed.

Lemma X16_witness :
  ∃ r t_n i v i' v',
    RLC.run rlc_coarse = Ok r ∧
    RLC.t r !! 1%nat = Some t_n ∧
    RLC.i_L (RLC.out r) !! 1%nat = Some i ∧ RLC.v_C (RLC.out r) !! 1%nat = Some v ∧
    RLC.i_L (RLC.out r) !! 2%nat = Some i' ∧ RLC.v_C (RLC.out r) !! 2%nat = Some v' ∧
    RLC.L rlc_coarse / 2 * ((i' - RLC.V_source rlc_coarse / RLC.R_load rlc_coarse t_n)
                            * (i' - RLC.V_source rlc_coarse / RLC.R_load rlc_coarse t_n))
    + RLC.C rlc_coarse / 2
      * ((v' - RLC.V_source rlc_coarse) * (v' - RLC.V_source rlc_coarse))
    <= RLC.L rlc_coarse / 2 * ((i - RLC.V_source rlc_coarse / RLC.R_load rlc_coarse t_n)
                               * (i - RLC.V_source rlc_coarse / RLC.R_load rlc_coarse t_n))
       + RLC.C rlc_coarse / 2
         * ((v - RLC.V_source rlc_coarse) * (v - RLC.V_source rlc_coarse)).
Proof.
  eexists _, _, _, _, _, _. split; [vm_compute; reflexivity|].
  split_and!; [vm_compute; reflexivity..|].
  eapply (X16_rlc_step_never_leaves_steady_state rlc_coarse _ 1);
    [vm_compute; reflexivity|Qeval|vm_compute; reflexivity|Qeval
    |vm_compute; reflexivity..].
Defined.

(** ** Finite outputs *)

(** X17. When the load resistance is never 0, no entry of [i_load] in a
    finished RLC run is the non-finite value of a division by zero. *)
Theorem X17_rlc_load_current_finite (c : RLC.circuit) (r : RLC.series) :
  RLC.run c = Ok r → (∀ τ, ¬ RLC.R_load c τ == 0) →
  ∀ n y, RLC.i_load (RLC.out r) !! n = Some y → y ≠ non_finite.
Proof.
  intros Hrun HR n y Hy.
  apply rlc_run_trace in Hrun as (_ & _ & _ & _ & _ & Hll & H0 & Hsteps).
  destruct n as [|n].
  - destruct H0 as (_ & _ & Hl0); [apply lookup_lt_Some in Hy; lia|].
    rewrite Hy in Hl0. by injection Hl0 as ->.
  - destruct (Hsteps n) as (t_n & t_n1 & x_n & x_p & _ & _ & _ & _ & _ & _ & Hl).
    { apply lookup_lt_Some in Hy. lia. }
    rewrite Hy in Hl. injection Hl as ->.
    unfold np_divide. destruct (Qeq_bool _ 0) eqn:E; [|done].
    apply Qeq_bool_eq in E. by destruct (HR t_n1).
Qed.

Lemma X17_witness :
  ∃ r, RLC.run RLC.script = Ok r ∧
    ∀ n y, RLC.i_load (RLC.out r) !! n = Some y → y ≠ non_finite.
Proof.
  destruct rlc_script_total as [r Hr]. exists r. split; [exact Hr|].
  apply (X17_rlc_load_current_finite RLC.script r Hr).
  intros τ. change (RLC.R_load RLC.script τ) with (RLC.load_resistance τ).
  unfold RLC.load_resistance. destruct (Qltb τ 0.005); Qeval.
Defined.
